(** * blur_simd.c: the 7-tap SIMD blur of i3lock-color

    A shallow embedding of [src/blur_simd.c]: the SSE2 and AVX intrinsics
    the file uses, the border-aware gathering of the 7-pixel window, the
    two horizontal passes and the two orchestrators [blur_impl_sse2] and
    [blur_impl_avx].

    Conventions.
    - A C array is a function from indices to values: the declared cells
      together with whatever the machine keeps next to them.  A read
      outside the declared cells therefore returns an unspecified word,
      which is a parameter of the model; the cells that the code is
      allowed to touch are described by separate predicates.
    - [int] is a 32-bit two's complement integer.  Once a loop body runs,
      the counters, [width - HALF_KERNEL] and the like stay within its
      range; the one operation that can leave it is the product
      [height * column] of the store index, which is modelled by
      [int_mul] with the wrap-around of the machine multiplication (ISO C
      leaves that overflow undefined).  The theorems about stored pixels
      assume [width * height <= 2^31 - 1], where the product is exact.
      The sum with [row] is pointer arithmetic.
    - [float] is IEEE-754 binary32 and [double] is binary64, both taken
      from [SpecFloat]; the SSE/AVX conversions use the default rounding
      mode (to nearest, ties to even).
    - A vector register is the list of its bytes, lowest byte first. *)

From Stdlib Require Import ZArith List Bool Lia Reals Lra.
From Stdlib Require Import Floats.SpecFloat.
Import ListNotations.
Local Open Scope Z_scope.

(** ** Arrays and loops *)

Definition array (A : Type) := Z -> A.

Definition store {A : Type} (a : array A) (i : Z) (v : A) : array A :=
  fun j => if j =? i then v else a j.

(** [uint32_t *src], [uint32_t *dst]: offsets are counted in pixels from
    the pointer handed to the blur. *)
Definition buffer := array Z.

(** [for (; i < bound; i++) s = body i s;] returns the final [i] and the
    final state. *)
Fixpoint for_from {S : Type} (n : nat) (i : Z) (body : Z -> S -> S) (s : S)
  : Z * S :=
  match n with
  | O => (i, s)
  | Datatypes.S n' => for_from n' (i + 1) body (body i s)
  end.

Definition for_lt {S : Type} (i bound : Z) (body : Z -> S -> S) (s : S)
  : Z * S :=
  for_from (Z.to_nat (bound - i)) i body s.

(** ** Compile-time constants *)

Definition KERNEL_SIZE : Z := 7.
(** [#define HALF_KERNEL KERNEL_SIZE / 2]; every use in the file is of the
    form [e - HALF_KERNEL], [HALF_KERNEL - e] or a comparison, so the
    missing parentheses do not change the value. *)
Definition HALF_KERNEL : Z := KERNEL_SIZE / 2.
(** [#define REGISTERS_CNT (KERNEL_SIZE + 4/2) / 4] *)
Definition REGISTERS_CNT : Z := (KERNEL_SIZE + 4 / 2) / 4.

(** ** Bytes, lanes and registers *)

Fixpoint le_split (n : nat) (w : Z) : list Z :=
  match n with
  | O => []
  | Datatypes.S n' => w mod 256 :: le_split n' (w / 256)
  end.

Fixpoint le_combine (l : list Z) : Z :=
  match l with
  | [] => 0
  | b :: t => b + 256 * le_combine t
  end.

(** Channel [k] (0..3) of a packed pixel. *)
Definition channel (k : Z) (p : Z) : Z := (p / 2 ^ (8 * k)) mod 256.

Definition __m128i := list Z.

(** The [k] lanes of [w] bytes each that a register is made of. *)
Fixpoint lanes (w k : nat) (v : list Z) : list Z :=
  match k with
  | O => []
  | Datatypes.S k' => le_combine (firstn w v) :: lanes w k' (skipn w v)
  end.

Definition unlanes (w : nat) (l : list Z) : list Z := flat_map (le_split w) l.

Definition epi16 (v : __m128i) : list Z := lanes 2 8 v.
Definition epi32 (v : __m128i) : list Z := lanes 4 4 v.

Fixpoint interleave {A : Type} (a b : list A) : list A :=
  match a, b with
  | x :: a', y :: b' => x :: y :: interleave a' b'
  | _, _ => []
  end.

Fixpoint map2 {A B C : Type} (f : A -> B -> C) (a : list A) (b : list B)
  : list C :=
  match a, b with
  | x :: a', y :: b' => f x y :: map2 f a' b'
  | _, _ => []
  end.

(** Two's complement reading of a [w]-bit lane. *)
Definition signed (w : Z) (x : Z) : Z :=
  if x <? 2 ^ (w - 1) then x else x - 2 ^ w.

Definition clamp (lo hi x : Z) : Z := Z.max lo (Z.min hi x).

(** The product of two [int]s, as the 32-bit multiplication computes
    it. *)
Definition int_mul (a b : Z) : Z := signed 32 ((a * b) mod 2 ^ 32).

(** ** SSE2 integer intrinsics *)

Definition _mm_setzero_si128 : __m128i := repeat 0 16.

Definition _mm_set_epi32 (e3 e2 e1 e0 : Z) : __m128i :=
  unlanes 4 [e0; e1; e2; e3].

(** [_mm_loadu_si128((__m128i* )(a + i))] and its aligned variant: four
    consecutive 32-bit words. *)
Definition _mm_loadu_si128 (a : array Z) (i : Z) : __m128i :=
  unlanes 4 [a i; a (i + 1); a (i + 2); a (i + 3)].

Definition _mm_load_si128 (a : array Z) (i : Z) : __m128i :=
  _mm_loadu_si128 a i.

Definition _mm_unpacklo_epi8 (a b : __m128i) : __m128i :=
  interleave (firstn 8 a) (firstn 8 b).

Definition _mm_unpackhi_epi8 (a b : __m128i) : __m128i :=
  interleave (skipn 8 a) (skipn 8 b).

Definition _mm_unpacklo_epi16 (a b : __m128i) : __m128i :=
  unlanes 2 (interleave (firstn 4 (epi16 a)) (firstn 4 (epi16 b))).

Definition _mm_unpackhi_epi16 (a b : __m128i) : __m128i :=
  unlanes 2 (interleave (skipn 4 (epi16 a)) (skipn 4 (epi16 b))).

Definition _mm_add_epi16 (a b : __m128i) : __m128i :=
  unlanes 2 (map2 (fun x y => (x + y) mod 2 ^ 16) (epi16 a) (epi16 b)).

Definition _mm_add_epi32 (a b : __m128i) : __m128i :=
  unlanes 4 (map2 (fun x y => (x + y) mod 2 ^ 32) (epi32 a) (epi32 b)).

(** [(~a) & b] *)
Definition _mm_andnot_si128 (a b : __m128i) : __m128i :=
  map2 (fun x y => Z.land (Z.lxor x 255) y) a b.

(** Signed saturation of 32-bit lanes to 16 bits. *)
Definition _mm_packs_epi32 (a b : __m128i) : __m128i :=
  unlanes 2
    (map (fun x => clamp (- 2 ^ 15) (2 ^ 15 - 1) (signed 32 x) mod 2 ^ 16)
       (epi32 a ++ epi32 b)).

(** Unsigned saturation of signed 16-bit lanes to 8 bits. *)
Definition _mm_packus_epi16 (a b : __m128i) : __m128i :=
  map (fun x => clamp 0 255 (signed 16 x)) (epi16 a ++ epi16 b).

(** The low 32 bits, as stored into a [uint32_t]. *)
Definition _mm_cvtsi128_si32 (a : __m128i) : Z := le_combine (firstn 4 a).

(** ** Floating point: [float] and [double] *)

Module F32.
Definition prec : Z := 24.
Definition emax : Z := 128.
Definition t := spec_float.
Definition add : t -> t -> t := SFadd prec emax.
Definition mul : t -> t -> t := SFmul prec emax.
Definition div : t -> t -> t := SFdiv prec emax.
Definition sqrt : t -> t := SFsqrt prec emax.
Definition neg : t -> t := SFopp.
(** Conversion from an integer, rounding to nearest even. *)
Definition of_Z (n : Z) : t := binary_normalize prec emax n 0 false.
Definition zero : t := S754_zero false.
End F32.

Module F64.
Definition prec : Z := 53.
Definition emax : Z := 1024.
Definition t := spec_float.
Definition mul : t -> t -> t := SFmul prec emax.
Definition div : t -> t -> t := SFdiv prec emax.
Definition of_Z (n : Z) : t := binary_normalize prec emax n 0 false.
(** [(double)x]: every [float] is a [double]; the mantissa is widened to
    53 bits. *)
Definition of_float (x : spec_float) : t :=
  match x with
  | S754_finite s m e => binary_round prec emax s m e
  | _ => x
  end.
(** [M_PI] of [math.h], 3.14159265358979323846 rounded to binary64. *)
Definition M_PI : t := S754_finite false 7074237752028440 (-51).
End F64.

(** [(float)d]: rounding a [double] to [float]. *)
Definition float_of_double (d : F64.t) : F32.t :=
  match d with
  | S754_finite s m e => binary_round F32.prec F32.emax s m e
  | _ => d
  end.

(** Rounding [m * 2^e] to the nearest integer, ties to even. *)
Definition round_even (m e : Z) : Z :=
  if 0 <=? e then m * 2 ^ e
  else
    let d := 2 ^ (- e) in
    let q := m / d in
    let r := m mod d in
    if 2 * r <? d then q
    else if d <? 2 * r then q + 1
    else if Z.even q then q else q + 1.

(** [cvtps2dq] on one lane: the nearest integer, or the "integer
    indefinite" value 0x80000000 when it does not fit 32 bits. *)
Definition cvt_ps_epi32 (x : F32.t) : Z :=
  match x with
  | S754_zero _ => 0
  | S754_finite s m e =>
      let n := cond_Zopp s (round_even (Zpos m) e) in
      if (- 2 ^ 31 <=? n) && (n <? 2 ^ 31) then n else - 2 ^ 31
  | _ => - 2 ^ 31
  end.

Definition __m128 := list F32.t.
Definition __m256 := list F32.t.

Definition _mm_setzero_ps : __m128 := repeat F32.zero 4.
Definition _mm_set1_ps (x : F32.t) : __m128 := repeat x 4.
Definition _mm_mul_ps (a b : __m128) : __m128 := map2 F32.mul a b.
Definition _mm_add_ps (a b : __m128) : __m128 := map2 F32.add a b.

Definition _mm_cvtepi32_ps (a : __m128i) : __m128 :=
  map (fun x => F32.of_Z (signed 32 x)) (epi32 a).

Definition _mm_cvtps_epi32 (a : __m128) : __m128i :=
  unlanes 4 (map (fun x => cvt_ps_epi32 x mod 2 ^ 32) a).

(** ** The narrow pass: arithmetic on one window *)

(** Lines 87-97: the 16-bit accumulator after each of its four additions. *)
Definition sse2_acc16_1 (rgbaIn : array __m128i) : __m128i :=
  let zero := _mm_setzero_si128 in
  let acc := _mm_setzero_si128 in
  _mm_add_epi16 acc (_mm_unpacklo_epi8 (rgbaIn 0) zero).

Definition sse2_acc16_2 (rgbaIn : array __m128i) : __m128i :=
  let zero := _mm_setzero_si128 in
  _mm_add_epi16 (sse2_acc16_1 rgbaIn) (_mm_unpackhi_epi8 (rgbaIn 0) zero).

Definition sse2_acc16_3 (rgbaIn : array __m128i) : __m128i :=
  let zero := _mm_setzero_si128 in
  _mm_add_epi16 (sse2_acc16_2 rgbaIn) (_mm_unpacklo_epi8 (rgbaIn 1) zero).

(** "kernel size equals to 7, but we can only load multiples of 4 pixels
    we have to set 8th pixel to zero" *)
Definition sse2_acc16 (rgbaIn : array __m128i) : __m128i :=
  let zero := _mm_setzero_si128 in
  _mm_add_epi16 (sse2_acc16_3 rgbaIn)
    (_mm_andnot_si128 (_mm_set_epi32 0xFFFFFFFF 0xFFFFFFFF 0 0)
       (_mm_unpackhi_epi8 (rgbaIn 1) zero)).

(** Lines 98-99: widening to 32-bit lanes. *)
Definition sse2_acc32 (rgbaIn : array __m128i) : __m128i :=
  let zero := _mm_setzero_si128 in
  let acc := sse2_acc16 rgbaIn in
  _mm_add_epi32 (_mm_unpacklo_epi16 acc zero) (_mm_unpackhi_epi16 acc zero).

(** [1/((float)KERNEL_SIZE)] *)
Definition inv_kernel_size : F32.t :=
  F32.div (F32.of_Z 1) (F32.of_Z KERNEL_SIZE).

(** Lines 87-105: the packed pixel that is stored for one window. *)
Definition sse2_pixel (rgbaIn : array __m128i) : Z :=
  let zero := _mm_setzero_si128 in
  let acc := sse2_acc32 rgbaIn in
  let acc :=
    _mm_cvtps_epi32
      (_mm_mul_ps (_mm_cvtepi32_ps acc) (_mm_set1_ps inv_kernel_size)) in
  _mm_cvtsi128_si32 (_mm_packus_epi16 (_mm_packs_epi32 acc zero) zero).

(** ** AVX intrinsics *)

Definition __m256i := list Z.

Definition _mm256_setzero_ps : __m256 := repeat F32.zero 8.

(** [_mm256_setr_m128(v0, v1)] is [_mm256_set_m128(v1, v0)]: [v0] becomes
    the low half and [v1] the high half. *)
Definition _mm256_setr_m128 (v0 v1 : __m128) : __m256 := v0 ++ v1.
Definition _mm256_setr_m128i (v0 v1 : __m128i) : __m256i := v0 ++ v1.

Definition _mm256_cvtepi32_ps (a : __m256i) : __m256 :=
  map (fun x => F32.of_Z (signed 32 x)) (lanes 4 8 a).

Definition _mm256_mul_ps (a b : __m256) : __m256 := map2 F32.mul a b.
Definition _mm256_add_ps (a b : __m256) : __m256 := map2 F32.add a b.

Definition _mm256_extractf128_ps (a : __m256) (imm : Z) : __m128 :=
  if imm =? 0 then firstn 4 a else skipn 4 a.

(** ** The stack frame

    The local arrays of the two passes and of the orchestrators, before
    anything is written to them.  Cells outside the declared bounds stand
    for the neighbouring stack words. *)
Record stack : Type := {
  stk_kernel : array F32.t;      (* float kernel[KERNEL_SIZE] *)
  stk__rgbaIn : array Z;         (* uint32_t _rgbaIn[KERNEL_SIZE] *)
  stk_rgbaIn : array __m128i;    (* __m128i rgbaIn[REGISTERS_CNT] *)
  stk_kernels : array __m256     (* __m256 kernels[HALF_KERNEL] *)
}.

(** ** Border-aware gathering (lines 57-85 and 142-170) *)

(** The two loops of the left-border branch. *)
Definition fill_left (_rgbaIn : array Z) (src : buffer) (p column : Z)
  : array Z :=
  let '(i, a) :=
    for_lt 0 (HALF_KERNEL - column)
      (fun i a => store a i (src (p + (HALF_KERNEL - i)))) _rgbaIn in
  snd (for_lt i KERNEL_SIZE
         (fun i a => store a i (src (p - (HALF_KERNEL - i)))) a).

(** The two loops of the right-border branch; the second one also steps
    [k]. *)
Definition fill_right (_rgbaIn : array Z) (src : buffer)
  (p width column : Z) : array Z :=
  let '(i, a) :=
    for_lt 0 (width - column) (fun i a => store a i (src (p + i))) _rgbaIn in
  snd (snd (for_lt i KERNEL_SIZE
              (fun i '(k, a) => (k + 1, store a i (src (p - k)))) (0, a))).

(** [p] is the offset of the current pixel, that is the value of the
    running pointer [src] relative to its initial value. *)
Definition gather (stk : stack) (src : buffer) (p width column : Z)
  : array __m128i :=
  let leftBorder := column <? HALF_KERNEL in
  let rightBorder := width - HALF_KERNEL <? column in
  if leftBorder then
    let a := fill_left (stk__rgbaIn stk) src p column in
    snd (for_lt 0 REGISTERS_CNT
           (fun k r => store r k (_mm_load_si128 a (4 * k))) (stk_rgbaIn stk))
  else if rightBorder then
    let a := fill_right (stk__rgbaIn stk) src p width column in
    snd (for_lt 0 REGISTERS_CNT
           (fun k r => store r k (_mm_load_si128 a (4 * k))) (stk_rgbaIn stk))
  else
    snd (for_lt 0 REGISTERS_CNT
           (fun k r => store r k (_mm_loadu_si128 src (p + 4 * k - HALF_KERNEL)))
           (stk_rgbaIn stk)).

(** The offsets of [src] that one gathering reads, in program order. *)
Definition reads (p width column : Z) : list Z :=
  if column <? HALF_KERNEL then
    map (fun i => p + (HALF_KERNEL - i))
      (map Z.of_nat (seq 0 (Z.to_nat (HALF_KERNEL - column))))
    ++ map (fun i => p - (HALF_KERNEL - i))
      (map Z.of_nat
         (seq (Z.to_nat (HALF_KERNEL - column))
            (Z.to_nat (KERNEL_SIZE - Z.max 0 (HALF_KERNEL - column)))))
  else if width - HALF_KERNEL <? column then
    map (fun i => p + i) (map Z.of_nat (seq 0 (Z.to_nat (width - column))))
    ++ map (fun k => p - k)
      (map Z.of_nat
         (seq 0 (Z.to_nat (KERNEL_SIZE - Z.max 0 (width - column)))))
  else
    flat_map
      (fun k => let a := p + 4 * k - HALF_KERNEL in [a; a + 1; a + 2; a + 3])
      [0; 1].

(** ** The narrow pass and its orchestrator *)

Definition blur_impl_horizontal_pass_sse2 (stk : stack) (src dst : buffer)
  (kernel : array F32.t) (width height : Z) : buffer :=
  snd (snd (for_lt 0 height
    (fun row st =>
       snd (for_lt 0 width
         (fun column '(p, d) =>
            let rgbaIn := gather stk src p width column in
            (p + 1,
             store d (int_mul height column + row) (sse2_pixel rgbaIn)))
         st))
    (0, dst))).

(** ** Kernel construction (lines 30-42 and 111-123)

    [expf] is the single-precision exponential of the C library, which is
    not part of the repository: it is a parameter.  [sqrtf] is the
    correctly rounded IEEE square root. *)
Definition sqrtf (x : F32.t) : F32.t := F32.sqrt x.

Definition build_kernel (expf : F32.t -> F32.t) (stk : stack)
  (sigma : F32.t) : array F32.t :=
  let s := F64.of_float sigma in
  (* float coeff = 1.0 / sqrtf(2 * M_PI * sigma * sigma), sum = 0; *)
  let coeff :=
    float_of_double
      (F64.div (F64.of_Z 1)
         (F64.of_float
            (sqrtf
               (float_of_double
                  (F64.mul (F64.mul (F64.mul (F64.of_Z 2) F64.M_PI) s) s))))) in
  let sum := F32.of_Z 0 in
  let '(kernel, sum) :=
    snd (for_lt 0 KERNEL_SIZE
           (fun i '(kernel, sum) =>
              (* float x = HALF_KERNEL - i; *)
              let x := F32.of_Z (HALF_KERNEL - i) in
              (* kernel[i] = coeff * expf(-x * x / (2.0 * sigma * sigma)); *)
              let w :=
                F32.mul coeff
                  (expf
                     (float_of_double
                        (F64.div (F64.of_float (F32.mul (F32.neg x) x))
                           (F64.mul (F64.mul (F64.of_Z 2) s) s)))) in
              let kernel := store kernel i w in
              (* sum += kernel[i]; *)
              (kernel, F32.add sum (kernel i)))
           (stk_kernel stk, sum)) in
  (* kernel[i] /= sum; *)
  snd (for_lt 0 KERNEL_SIZE
         (fun i kernel => store kernel i (F32.div (kernel i) sum)) kernel).

(** Both buffers as the call leaves them. *)
Definition blur_impl_sse2 (expf : F32.t -> F32.t) (stk : stack)
  (src dst : buffer) (width height : Z) (sigma : F32.t) : buffer * buffer :=
  let kernel := build_kernel expf stk sigma in
  let dst := blur_impl_horizontal_pass_sse2 stk src dst kernel width height in
  let src := blur_impl_horizontal_pass_sse2 stk dst src kernel height width in
  (src, dst).

(** ** The wide pass and its orchestrator *)

(** Lines 134-136. *)
Definition avx_kernels (stk : stack) (kernel : array F32.t) : array __m256 :=
  snd (snd (for_lt 0 HALF_KERNEL
    (fun i '(k, kernels) =>
       (k + 2,
        store kernels i
          (_mm256_setr_m128 (_mm_set1_ps (kernel k))
             (_mm_set1_ps (kernel (k + 1))))))
    (0, stk_kernels stk))).

(** One multiply-accumulate step on a pair of unpacked pixels. *)
Definition avx_madd (acc : __m256) (tmp : __m128i) (k : __m256) : __m256 :=
  let zero := _mm_setzero_si128 in
  let rgba_ps :=
    _mm256_cvtepi32_ps
      (_mm256_setr_m128i (_mm_unpacklo_epi16 tmp zero)
         (_mm_unpackhi_epi16 tmp zero)) in
  _mm256_add_ps acc (_mm256_mul_ps rgba_ps k).

(** Lines 172-208: the packed pixel that is stored for one window. *)
Definition avx_pixel (kernels : array __m256) (kernel : array F32.t)
  (rgbaIn : array __m128i) : Z :=
  let zero := _mm_setzero_si128 in
  let acc := _mm256_setzero_ps in
  let counter := 0 in
  let '(acc, counter) :=
    snd (for_lt 0 3
           (fun i '(acc, counter) =>
              let tmp := _mm_unpacklo_epi8 (rgbaIn i) zero in
              let acc := avx_madd acc tmp (kernels counter) in
              let counter := counter + 1 in
              let tmp := _mm_unpackhi_epi8 (rgbaIn i) zero in
              let acc := avx_madd acc tmp (kernels counter) in
              let counter := counter + 1 in
              (acc, counter))
           (acc, counter)) in
  let tmp := _mm_unpacklo_epi8 (rgbaIn 3) zero in
  let acc := avx_madd acc tmp (kernels counter) in
  let tmp := _mm_unpackhi_epi8 (rgbaIn 3) zero in
  let rgba_ps_128 := _mm_cvtepi32_ps (_mm_unpacklo_epi16 tmp zero) in
  let rgba_ps_128 :=
    _mm_mul_ps rgba_ps_128 (_mm_set1_ps (kernel (KERNEL_SIZE - 1))) in
  let rgba_ps_128 :=
    _mm_add_ps rgba_ps_128
      (_mm_add_ps (_mm256_extractf128_ps acc 0)
         (_mm256_extractf128_ps acc 1)) in
  let rgbaOut := _mm_packs_epi32 (_mm_cvtps_epi32 rgba_ps_128) zero in
  let rgbaOut := _mm_packus_epi16 rgbaOut zero in
  _mm_cvtsi128_si32 rgbaOut.

Definition blur_impl_horizontal_pass_avx (stk : stack) (src dst : buffer)
  (kernel : array F32.t) (width height : Z) : buffer :=
  let kernels := avx_kernels stk kernel in
  snd (snd (for_lt 0 height
    (fun row st =>
       snd (for_lt 0 width
         (fun column '(p, d) =>
            let rgbaIn := gather stk src p width column in
            (p + 1,
             store d (int_mul height column + row)
               (avx_pixel kernels kernel rgbaIn)))
         st))
    (0, dst))).

Definition blur_impl_avx (expf : F32.t -> F32.t) (stk : stack)
  (src dst : buffer) (width height : Z) (sigma : F32.t) : buffer * buffer :=
  let kernel := build_kernel expf stk sigma in
  let dst := blur_impl_horizontal_pass_avx stk src dst kernel width height in
  let src := blur_impl_horizontal_pass_avx stk dst src kernel height width in
  (src, dst).

(** * Vocabulary of the statements *)

(** The registers [rgbaIn[0]] and [rgbaIn[1]] hold the eight packed pixels
    [w]. *)
Definition holds (rgbaIn : array __m128i) (w : list Z) : Prop :=
  rgbaIn 0 = unlanes 4 (firstn 4 w) /\ rgbaIn 1 = unlanes 4 (skipn 4 w).

(** The eight packed pixels that the gathering leaves in [rgbaIn[0]] and
    [rgbaIn[1]]: the words read from [src] and, in the two border
    branches, the stack word that follows [_rgbaIn]. *)
Definition window (stk : stack) (src : buffer) (p width column : Z)
  : list Z :=
  firstn 8 (map src (reads p width column) ++ [stk__rgbaIn stk 7]).

(** The sum of channel [k] over the pixels of [w]. *)
Definition channel_sum (k : Z) (w : list Z) : Z :=
  fold_right Z.add 0 (map (channel k) w).

(** What one 32-bit lane of the narrow accumulator becomes: conversion to
    [float], multiplication by [1/7] and conversion back with rounding. *)
Definition scale7 (s : Z) : Z :=
  cvt_ps_epi32 (F32.mul (F32.of_Z s) inv_kernel_size).

(** Saturation to the 8-bit range. *)
Definition sat8 (n : Z) : Z := clamp 0 255 n.

(** The row and column loops, which the two passes share: they differ
    only in the arithmetic applied to the gathered registers. *)
Definition pass_loop (pixel : array __m128i -> Z) (stk : stack)
  (src dst : buffer) (width height : Z) : buffer :=
  snd (snd (for_lt 0 height
    (fun row st =>
       snd (for_lt 0 width
         (fun column '(p, d) =>
            let rgbaIn := gather stk src p width column in
            (p + 1, store d (int_mul height column + row) (pixel rgbaIn)))
         st))
    (0, dst))).

(** The positions handled before the iteration [(R, C)]. *)
Definition handled (width R C r c : Z) : Prop :=
  0 <= c < width /\ (0 <= r < R \/ (r = R /\ c < C)).

(** The invariant of the two loops at the head of iteration [(R, C)]. *)
Definition pass_inv (pixel : array __m128i -> Z) (stk : stack)
  (src dst : buffer) (width height R C : Z) (st : Z * buffer) : Prop :=
  fst st = R * width + C /\
  (forall r c, handled width R C r c ->
     snd st (height * c + r) =
     pixel (gather stk src (r * width + c) width c)) /\
  (forall a, (forall r c, handled width R C r c -> a <> height * c + r) ->
     snd st a = dst a).

(** [out] is [dst] after one pass over [src]: the pixel computed for row
    [r] and column [c] sits at offset [height * c + r], and nothing else
    has changed. *)
Definition transposed_pass (pixel : array __m128i -> Z) (stk : stack)
  (src dst : buffer) (width height : Z) (out : buffer) : Prop :=
  (forall r c, 0 <= r < height -> 0 <= c < width ->
     out (height * c + r) = pixel (gather stk src (r * width + c) width c)) /\
  (forall a, ~ 0 <= a < width * height -> out a = dst a).

(** A stack whose words are all zero. *)
Definition stack_zero : stack :=
  {| stk_kernel := fun _ => F32.zero;
     stk__rgbaIn := fun _ => 0;
     stk_rgbaIn := fun _ => _mm_setzero_si128;
     stk_kernels := fun _ => _mm256_setzero_ps |}.

(** Stated from the specification (section 4.5): channel [k] of the pixel
    that the wide pass stores is the sum over the seven window pixels of
    the channel times its kernel coefficient, converted to an integer
    with rounding and saturated to 0..255. *)
Definition weighted_channel (kernel : array F32.t) (w : list Z) (k : Z) : Z :=
  sat8
    (cvt_ps_epi32
       (fold_left
          (fun acc i =>
             F32.add acc
               (F32.mul (F32.of_Z (channel k (nth (Z.to_nat i) w 0)))
                  (kernel i)))
          [0; 1; 2; 3; 4; 5; 6] F32.zero)).

(** ** Concrete inputs *)

(** A stack whose integer words are all ones and whose floats are 1.0. *)
Definition stack_ones : stack :=
  {| stk_kernel := fun _ => F32.of_Z 1;
     stk__rgbaIn := fun _ => 0xFFFFFFFF;
     stk_rgbaIn := fun _ => repeat 255 16;
     stk_kernels := fun _ => repeat (F32.of_Z 1) 8 |}.

(** The pixel at offset [x] is [x]. *)
Definition ramp : buffer := fun x => x.

(** The packed pixel (255, 0, 0, 255), lowest channel first. *)
Definition red : Z := 0xFF0000FF.

(** A 4x4 image, all red, between zero words, and a 7x7 one. *)
Definition red_4x4 : buffer :=
  fun a => if (0 <=? a) && (a <? 16) then red else 0.

Definition red_7x7 : buffer :=
  fun a => if (0 <=? a) && (a <? 49) then red else 0.

(** A black image of any size, and the same followed at offset 100 by a
    white word. *)
Definition black : buffer := fun _ => 0.
Definition black_then_white : buffer :=
  fun a => if a =? 100 then 0xFFFFFFFF else 0.

(** Mid grey everywhere. *)
Definition grey : Z := 0x80808080.
Definition flat_grey : buffer := fun _ => grey.

(** The symmetric kernel (1, 2, 3, 4, 3, 2, 1) / 16, which sums to 1. *)
Definition kernel_16 : array F32.t :=
  fun i => F32.div (F32.of_Z (nth (Z.to_nat i) [1; 2; 3; 4; 3; 2; 1] 0))
             (F32.of_Z 16).

(** ** Exact values of floats *)

Definition p2 (e : Z) : R := powerRZ 2 e.

(** The real number that a finite float stands for. *)
Definition val (x : spec_float) : R :=
  match x with
  | S754_finite s m e => (if s then -1 else 1) * IZR (Zpos m) * p2 e
  | _ => 0
  end%R.

(** [y] lies at position [l] of the interval from [m] to [m + 1]. *)
Definition loc_ok (m : Z) (l : location) (y : R) : Prop :=
  match l with
  | loc_Exact => y = IZR m
  | loc_Inexact Lt => IZR m < y < IZR m + / 2
  | loc_Inexact Eq => y = IZR m + / 2
  | loc_Inexact Gt => IZR m + / 2 < y < IZR m + 1
  end%R.

Definition is_finite (x : spec_float) : bool :=
  match x with
  | S754_zero _ | S754_finite _ _ _ => true
  | _ => false
  end.

(** A float that is zero or positive and finite, with an exponent in the
    binary32 range. *)
Definition nonneg_finite (x : spec_float) : Prop :=
  match x with
  | S754_zero _ => True
  | S754_finite false _ e => -149 <= e
  | _ => False
  end.

Definition positive_finite (x : spec_float) : Prop :=
  match x with
  | S754_finite false _ _ => True
  | _ => False
  end.

Definition zero_or_nan (x : spec_float) : Prop :=
  match x with
  | S754_zero _ | S754_nan => True
  | _ => False
  end.

(** The sum of the exact values of a list of floats, and of the seven
    cells of a kernel. *)
Definition rsum (ws : list spec_float) : R :=
  fold_right Rplus 0%R (map val ws).

Definition sum7 (k : array F32.t) : R :=
  (val (k 0%Z) + val (k 1%Z) + val (k 2%Z) + val (k 3%Z) + val (k 4%Z)
   + val (k 5%Z) + val (k 6%Z))%R.

(** ** The kernel, piece by piece

    The three quantities of [build_kernel]: [coeff], the weight that the
    first loop stores in [kernel[i]], and the final value of [sum]. *)
Definition kernel_coeff (sigma : F32.t) : F32.t :=
  let s := F64.of_float sigma in
  float_of_double
    (F64.div (F64.of_Z 1)
       (F64.of_float
          (sqrtf
             (float_of_double
                (F64.mul (F64.mul (F64.mul (F64.of_Z 2) F64.M_PI) s) s))))).

Definition kernel_weight (expf : F32.t -> F32.t) (sigma : F32.t) (i : Z)
  : F32.t :=
  let s := F64.of_float sigma in
  let x := F32.of_Z (HALF_KERNEL - i) in
  F32.mul (kernel_coeff sigma)
    (expf
       (float_of_double
          (F64.div (F64.of_float (F32.mul (F32.neg x) x))
             (F64.mul (F64.mul (F64.of_Z 2) s) s)))).

Definition kernel_total (expf : F32.t -> F32.t) (sigma : F32.t) : F32.t :=
  fold_left (fun sum i => F32.add sum (kernel_weight expf sigma i))
    [0; 1; 2; 3; 4; 5; 6] (F32.of_Z 0).

(** Stated from the specification (section 8): the seven coefficients are
    numbers that sum to 1 within 1e-5, and
    [coefficient[i] == coefficient[6-i]]. *)
Definition kernel_claim (kernel : array F32.t) : Prop :=
  (forall i, 0 <= i <= 6 -> is_finite (kernel i) = true) /\
  (Rabs (sum7 kernel - 1) <= / 100000)%R /\
  (forall i, 0 <= i <= 6 -> SFeqb (kernel i) (kernel (6 - i)) = true).

(** 2^100, a positive [float]. *)
Definition sigma_big : F32.t := S754_finite false 8388608 77.

(** A stand-in for [expf] in examples: [1 + x + x * x / 2]. *)
Definition expf_quadratic (x : F32.t) : F32.t :=
  F32.add (F32.of_Z 1) (F32.add x (F32.div (F32.mul x x) (F32.of_Z 2))).

(** ** Vocabulary of the further properties *)

(** The integer nearest to [s / 7]. *)
Definition round7 (s : Z) : Z := (2 * s + 7) / 14.

Definition offsets7 : list Z := [-3; -2; -1; 0; 1; 2; 3].

(** Channel [k] of the 7-pixel box filter along row [r] of [src], centred
    on column [c]. *)
Definition box_row (k : Z) (src : buffer) (width r c : Z) : Z :=
  round7 (channel_sum k (map (fun i => src (r * width + (c + i))) offsets7)).

(** The same filter along column [c], applied to the results of
    [box_row] in the rows [r - 3] to [r + 3]. *)
Definition box_2d (k : Z) (src : buffer) (width r c : Z) : Z :=
  round7
    (fold_right Z.add 0
       (map (fun j => box_row k src width (r + j) c) offsets7)).

(** A float that is an infinity or not a number. *)
Definition inf_or_nan (x : spec_float) : Prop :=
  match x with
  | S754_infinity _ | S754_nan => True
  | _ => False
  end.

(** A float that is not a non-zero finite number. *)
Definition degenerate (x : spec_float) : Prop :=
  match x with
  | S754_finite _ _ _ => False
  | _ => True
  end.

(** A vector register whose lanes are all NaN. *)
Definition all_nan (v : list F32.t) : Prop := Forall (fun x => x = S754_nan) v.

(** * Properties *)

(** Splits an equation between two lists of the same explicit length. *)
Ltac list_eq :=
  repeat match goal with
    | |- _ :: _ = _ :: _ => f_equal
    end.

(** ** Loops *)

Lemma for_from_inv {S : Type} (P : Z -> S -> Prop) (body : Z -> S -> S)
  (n : nat) :
  forall (i : Z) (s : S),
    P i s ->
    (forall j s', i <= j < i + Z.of_nat n -> P j s' -> P (j + 1) (body j s')) ->
    fst (for_from n i body s) = i + Z.of_nat n /\
    P (i + Z.of_nat n) (snd (for_from n i body s)).
Proof.
  induction n as [|n IH]; intros i s Hi Hstep.
  - cbn [for_from fst snd]. rewrite Z.add_0_r. auto.
  - cbn [for_from].
    destruct (IH (i + 1) (body i s)) as [Hf Hp].
    + apply Hstep; [lia | exact Hi].
    + intros j s' Hj. apply Hstep. lia.
    + replace (i + Z.of_nat (Datatypes.S n)) with (i + 1 + Z.of_nat n) by lia.
      auto.
Qed.

Lemma for_lt_inv {S : Type} (P : Z -> S -> Prop) (body : Z -> S -> S)
  (i bound : Z) (s : S) :
  i <= bound ->
  P i s ->
  (forall j s', i <= j < bound -> P j s' -> P (j + 1) (body j s')) ->
  fst (for_lt i bound body s) = bound /\ P bound (snd (for_lt i bound body s)).
Proof.
  intros Hle Hi Hstep. unfold for_lt.
  destruct (for_from_inv P body (Z.to_nat (bound - i)) i s Hi) as [Hf Hp].
  - intros j s' Hj. apply Hstep. lia.
  - replace (i + Z.of_nat (Z.to_nat (bound - i))) with bound in * by lia.
    auto.
Qed.

Lemma for_lt_done {S : Type} (body : Z -> S -> S) (i bound : Z) (s : S) :
  bound <= i -> for_lt i bound body s = (i, s).
Proof.
  intros H. unfold for_lt.
  replace (Z.to_nat (bound - i)) with O by lia. reflexivity.
Qed.

Lemma for_lt_step {S : Type} (body : Z -> S -> S) (i bound : Z) (s : S) :
  i < bound -> for_lt i bound body s = for_lt (i + 1) bound body (body i s).
Proof.
  intros H. unfold for_lt.
  replace (Z.to_nat (bound - i)) with (Datatypes.S (Z.to_nat (bound - (i + 1))))
    by lia.
  reflexivity.
Qed.

Lemma store_eq {A : Type} (a : array A) (i : Z) (v : A) : store a i v i = v.
Proof. unfold store. now rewrite Z.eqb_refl. Qed.

Lemma store_neq {A : Type} (a : array A) (i j : Z) (v : A) :
  j <> i -> store a i v j = a j.
Proof. intros H. unfold store. now apply Z.eqb_neq in H; rewrite H. Qed.

(** ** Bytes and lanes *)

Lemma le_split_length (n : nat) : forall w, length (le_split n w) = n.
Proof. induction n; intros w; cbn [le_split length]; auto. Qed.

Lemma le_combine_split (n : nat) :
  forall w, le_combine (le_split n w) = w mod 2 ^ (8 * Z.of_nat n).
Proof.
  induction n as [|n IH]; intros w.
  - cbn [le_split le_combine]. change (2 ^ (8 * Z.of_nat 0)) with 1.
    now rewrite Z.mod_1_r.
  - cbn [le_split le_combine]. rewrite IH.
    replace (8 * Z.of_nat (Datatypes.S n)) with (8 + 8 * Z.of_nat n) by lia.
    rewrite Z.pow_add_r by lia. change (2 ^ 8) with 256.
    rewrite (Z.rem_mul_r w 256 (2 ^ (8 * Z.of_nat n))) by lia. reflexivity.
Qed.

Lemma lanes_length (w k : nat) : forall v, length (lanes w k v) = k.
Proof. induction k; intros v; cbn [lanes length]; auto. Qed.

Lemma lanes_unlanes (w : nat) (l : list Z) :
  lanes w (length l) (unlanes w l) =
  map (fun x => x mod 2 ^ (8 * Z.of_nat w)) l.
Proof.
  induction l as [|x l IH]; [reflexivity|].
  cbn [length lanes unlanes flat_map map].
  rewrite firstn_app, skipn_app, le_split_length, Nat.sub_diag.
  rewrite firstn_all2, skipn_all2 by (rewrite le_split_length; lia).
  cbn [firstn skipn app]. rewrite app_nil_r, le_combine_split.
  f_equal. exact IH.
Qed.

Lemma map2_length {A B C : Type} (f : A -> B -> C) (a : list A) :
  forall b, length a = length b -> length (map2 f a b) = length a.
Proof.
  induction a as [|x a IH]; intros [|y b] H; cbn in *; try congruence.
  f_equal. apply IH. congruence.
Qed.

Lemma epi16_unlanes (l : list Z) :
  length l = 8%nat -> epi16 (unlanes 2 l) = map (fun x => x mod 2 ^ 16) l.
Proof.
  intros H. unfold epi16. pose proof (lanes_unlanes 2 l) as E.
  rewrite H in E. exact E.
Qed.

Lemma epi32_unlanes (l : list Z) :
  length l = 4%nat -> epi32 (unlanes 4 l) = map (fun x => x mod 2 ^ 32) l.
Proof.
  intros H. unfold epi32. pose proof (lanes_unlanes 4 l) as E.
  rewrite H in E. exact E.
Qed.

Lemma map_mod_map2 (m : Z) (a b : list Z) :
  map (fun x => x mod m) (map2 (fun x y => (x + y) mod m) a b) =
  map2 (fun x y => (x + y) mod m) a b.
Proof.
  revert b. induction a as [|x a IH]; intros [|y b]; cbn [map2 map]; auto.
  rewrite Zmod_mod, IH. reflexivity.
Qed.

Lemma epi16_add (a b : __m128i) :
  epi16 (_mm_add_epi16 a b) =
  map2 (fun x y => (x + y) mod 2 ^ 16) (epi16 a) (epi16 b).
Proof.
  unfold _mm_add_epi16. rewrite epi16_unlanes.
  - apply map_mod_map2.
  - unfold epi16. rewrite map2_length; now rewrite !lanes_length.
Qed.

Lemma epi32_add (a b : __m128i) :
  epi32 (_mm_add_epi32 a b) =
  map2 (fun x y => (x + y) mod 2 ^ 32) (epi32 a) (epi32 b).
Proof.
  unfold _mm_add_epi32. rewrite epi32_unlanes.
  - apply map_mod_map2.
  - unfold epi32. rewrite map2_length; now rewrite !lanes_length.
Qed.

Lemma channel_range (k p : Z) : 0 <= channel k p < 256.
Proof. unfold channel. apply Z.mod_pos_bound. lia. Qed.

Lemma le_split_pixel (p : Z) :
  le_split 4 p = [channel 0 p; channel 1 p; channel 2 p; channel 3 p].
Proof.
  unfold channel. cbn [le_split].
  rewrite !Z.div_div by lia.
  change (2 ^ (8 * 0)) with 1. rewrite Z.div_1_r. reflexivity.
Qed.

Lemma land_255_byte (x : Z) : 0 <= x < 256 -> Z.land 255 x = x.
Proof.
  intros H. rewrite Z.land_comm. change 255 with (Z.ones 8).
  rewrite Z.land_ones by lia. apply Z.mod_small. exact H.
Qed.

(** Evaluates the closed mask bytes of [_mm_andnot_si128]. *)
Ltac eval_mask :=
  repeat match goal with
    | |- context [Z.lxor ?a 255] =>
        let v := eval vm_compute in (Z.lxor a 255) in
        progress change (Z.lxor a 255) with v
    end.

Ltac channel_bounds :=
  repeat match goal with
    | |- context [channel ?k ?p] =>
        lazymatch goal with
        | _ : 0 <= channel k p < 256 |- _ => fail
        | _ => pose proof (channel_range k p)
        end
    end.

(** Symbolic evaluation of the 16-bit accumulation on eight named
    pixels. *)
Ltac acc16_lanes H :=
  let H0 := fresh "H0" in
  let H1 := fresh "H1" in
  destruct H as [H0 H1]; cbn [firstn skipn] in H0, H1;
  unfold sse2_acc16, sse2_acc16_3, sse2_acc16_2, sse2_acc16_1;
  rewrite !epi16_add, ?H0, ?H1;
  unfold unlanes; cbn [flat_map]; rewrite !le_split_pixel;
  cbv [_mm_unpacklo_epi8 _mm_unpackhi_epi8 _mm_setzero_si128
       _mm_andnot_si128 epi16 _mm_set_epi32 unlanes];
  cbn [app firstn skipn interleave repeat lanes le_combine map2 flat_map
       le_split map];
  eval_mask; channel_bounds; try change (Z.land 255 0) with 0;
  rewrite ?land_255_byte by assumption;
  rewrite ?Z.land_0_l; change (2 ^ 16) with 65536;
  list_eq; Z.div_mod_to_equations; lia.

Lemma sse2_acc16_1_lanes (rgbaIn : array __m128i)
  (p0 p1 p2 p3 p4 p5 p6 p7 : Z) :
  holds rgbaIn [p0; p1; p2; p3; p4; p5; p6; p7] ->
  epi16 (sse2_acc16_1 rgbaIn) =
  map (fun k => channel k p0) [0; 1; 2; 3]
  ++ map (fun k => channel k p1) [0; 1; 2; 3].
Proof. intros H. acc16_lanes H. Qed.

Lemma sse2_acc16_2_lanes (rgbaIn : array __m128i)
  (p0 p1 p2 p3 p4 p5 p6 p7 : Z) :
  holds rgbaIn [p0; p1; p2; p3; p4; p5; p6; p7] ->
  epi16 (sse2_acc16_2 rgbaIn) =
  map (fun k => channel k p0 + channel k p2) [0; 1; 2; 3]
  ++ map (fun k => channel k p1 + channel k p3) [0; 1; 2; 3].
Proof. intros H. acc16_lanes H. Qed.

Lemma sse2_acc16_3_lanes (rgbaIn : array __m128i)
  (p0 p1 p2 p3 p4 p5 p6 p7 : Z) :
  holds rgbaIn [p0; p1; p2; p3; p4; p5; p6; p7] ->
  epi16 (sse2_acc16_3 rgbaIn) =
  map (fun k => channel k p0 + channel k p2 + channel k p4) [0; 1; 2; 3]
  ++ map (fun k => channel k p1 + channel k p3 + channel k p5) [0; 1; 2; 3].
Proof. intros H. acc16_lanes H. Qed.

Lemma sse2_acc16_lanes (rgbaIn : array __m128i)
  (p0 p1 p2 p3 p4 p5 p6 p7 : Z) :
  holds rgbaIn [p0; p1; p2; p3; p4; p5; p6; p7] ->
  epi16 (sse2_acc16 rgbaIn) =
  map (fun k => channel k p0 + channel k p2 + channel k p4 + channel k p6)
    [0; 1; 2; 3]
  ++ map (fun k => channel k p1 + channel k p3 + channel k p5) [0; 1; 2; 3].
Proof. intros H. acc16_lanes H. Qed.

Lemma channel_sum_bounds (k : Z) (w : list Z) :
  0 <= channel_sum k w <= 255 * Z.of_nat (length w).
Proof.
  unfold channel_sum. induction w as [|p w IH]; cbn [map fold_right length].
  - lia.
  - pose proof (channel_range k p). lia.
Qed.

(** Names the eight 16-bit lanes of a register. *)
Ltac name_epi16 a :=
  let H := fresh "Hlen" in
  let l := fresh "l" in
  pose proof (lanes_length 2 8 a) as H;
  change (lanes 2 8 a) with (epi16 a) in H;
  generalize dependent (epi16 a); intros l H;
  repeat (let x := fresh "x" in destruct l as [|x l]; [discriminate H|]);
  destruct l; [clear H|discriminate H].

Lemma epi32_unpacklo_epi16_zero (a : __m128i) :
  epi32 (_mm_unpacklo_epi16 a _mm_setzero_si128) =
  map (fun x => x mod 2 ^ 16) (firstn 4 (epi16 a)).
Proof.
  unfold _mm_unpacklo_epi16.
  change (epi16 _mm_setzero_si128) with (repeat 0 8).
  name_epi16 a.
  cbv [epi32 unlanes].
  cbn [app firstn skipn interleave repeat lanes le_combine flat_map le_split
       map].
  change (2 ^ 16) with 65536.
  list_eq; Z.div_mod_to_equations; lia.
Qed.

Lemma epi32_unpackhi_epi16_zero (a : __m128i) :
  epi32 (_mm_unpackhi_epi16 a _mm_setzero_si128) =
  map (fun x => x mod 2 ^ 16) (skipn 4 (epi16 a)).
Proof.
  unfold _mm_unpackhi_epi16.
  change (epi16 _mm_setzero_si128) with (repeat 0 8).
  name_epi16 a.
  cbv [epi32 unlanes].
  cbn [app firstn skipn interleave repeat lanes le_combine flat_map le_split
       map].
  change (2 ^ 16) with 65536.
  list_eq; Z.div_mod_to_equations; lia.
Qed.

Lemma sse2_acc32_lanes (rgbaIn : array __m128i)
  (p0 p1 p2 p3 p4 p5 p6 p7 : Z) :
  holds rgbaIn [p0; p1; p2; p3; p4; p5; p6; p7] ->
  epi32 (sse2_acc32 rgbaIn) =
  map (fun k => channel_sum k [p0; p1; p2; p3; p4; p5; p6]) [0; 1; 2; 3].
Proof.
  intros H. unfold sse2_acc32.
  rewrite epi32_add, epi32_unpacklo_epi16_zero, epi32_unpackhi_epi16_zero.
  rewrite (sse2_acc16_lanes _ _ _ _ _ _ _ _ _ H).
  cbv [channel_sum].
  cbn [app firstn skipn map map2 fold_right].
  channel_bounds. change (2 ^ 16) with 65536. change (2 ^ 32) with 4294967296.
  list_eq; Z.div_mod_to_equations; lia.
Qed.

(** ** Saturation and scaling *)

Lemma signed_mod (w n : Z) :
  0 < w -> - 2 ^ (w - 1) <= n < 2 ^ (w - 1) -> signed w (n mod 2 ^ w) = n.
Proof.
  intros Hw Hn. unfold signed.
  assert (E : 2 ^ w = 2 * 2 ^ (w - 1)).
  { replace w with (1 + (w - 1)) at 1 by lia.
    rewrite Z.pow_add_r by lia. reflexivity. }
  assert (0 < 2 ^ (w - 1)) by (apply Z.pow_pos_nonneg; lia).
  destruct (Z.ltb_spec (n mod 2 ^ w) (2 ^ (w - 1))) as [Hlt|Hge].
  - destruct (Z.lt_ge_cases n 0) as [Hneg|Hpos].
    + rewrite <- (Z.mod_add n 1 (2 ^ w)) in Hlt by lia.
      rewrite Z.mod_small in Hlt by lia. lia.
    + apply Z.mod_small. lia.
  - destruct (Z.lt_ge_cases n 0) as [Hneg|Hpos].
    + rewrite <- (Z.mod_add n 1 (2 ^ w)) by lia.
      rewrite Z.mod_small by lia. lia.
    + rewrite Z.mod_small in Hge by lia. lia.
Qed.

Lemma cvt_ps_epi32_range (x : F32.t) :
  - 2 ^ 31 <= cvt_ps_epi32 x < 2 ^ 31.
Proof.
  unfold cvt_ps_epi32. destruct x as [s|s| |s m e]; try lia.
  destruct (andb _ _) eqn:E; [|lia].
  apply andb_true_iff in E. destruct E as [E1 E2].
  apply Z.leb_le in E1. apply Z.ltb_lt in E2. lia.
Qed.

Lemma sat8_range (n : Z) : 0 <= sat8 n < 256.
Proof. unfold sat8, clamp. lia. Qed.

(** The two saturating packs, on one lane. *)
Lemma pack_lane (n : Z) :
  - 2 ^ 31 <= n < 2 ^ 31 ->
  clamp 0 255
    (signed 16
       (clamp (- 2 ^ 15) (2 ^ 15 - 1) (signed 32 (n mod 2 ^ 32)) mod 2 ^ 16)) =
  sat8 n.
Proof.
  intros H. rewrite (signed_mod 32) by (cbn; lia).
  rewrite (signed_mod 16).
  - unfold sat8, clamp. lia.
  - lia.
  - unfold clamp. change (2 ^ (16 - 1)) with (2 ^ 15). lia.
Qed.

Lemma le_combine_channel (o0 o1 o2 o3 : Z) (k : Z) :
  0 <= o0 < 256 -> 0 <= o1 < 256 -> 0 <= o2 < 256 -> 0 <= o3 < 256 ->
  0 <= k < 4 ->
  channel k (le_combine [o0; o1; o2; o3]) = nth (Z.to_nat k) [o0; o1; o2; o3] 0.
Proof.
  intros H0 H1 H2 H3 Hk. unfold channel. cbn [le_combine].
  assert (K : k = 0 \/ k = 1 \/ k = 2 \/ k = 3) by lia.
  destruct K as [-> | [-> | [-> | ->]]];
    [change (2 ^ (8 * 0)) with 1 | change (2 ^ (8 * 1)) with 256
    | change (2 ^ (8 * 2)) with 65536 | change (2 ^ (8 * 3)) with 16777216];
    [change (Z.to_nat 0) with 0%nat | change (Z.to_nat 1) with 1%nat
    | change (Z.to_nat 2) with 2%nat | change (Z.to_nat 3) with 3%nat];
    cbn [nth]; Z.div_mod_to_equations; lia.
Qed.

Lemma sse2_pixel_eq (rgbaIn : array __m128i)
  (p0 p1 p2 p3 p4 p5 p6 p7 : Z) :
  holds rgbaIn [p0; p1; p2; p3; p4; p5; p6; p7] ->
  sse2_pixel rgbaIn =
  le_combine
    (map (fun k => sat8 (scale7 (channel_sum k [p0; p1; p2; p3; p4; p5; p6])))
       [0; 1; 2; 3]).
Proof.
  intros H. unfold sse2_pixel, _mm_cvtepi32_ps.
  rewrite (sse2_acc32_lanes _ _ _ _ _ _ _ _ _ H).
  set (w := [p0; p1; p2; p3; p4; p5; p6]).
  assert (Hs : forall k, signed 32 (channel_sum k w) = channel_sum k w).
  { intros k. pose proof (channel_sum_bounds k w) as B.
    change (Z.of_nat (length w)) with 7 in B.
    unfold signed. destruct (Z.ltb_spec (channel_sum k w) (2 ^ (32 - 1))); cbn in *; lia. }
  cbn [map]. rewrite !Hs.
  cbv [_mm_set1_ps _mm_mul_ps _mm_cvtps_epi32 _mm_packs_epi32].
  cbn [repeat map2 map].
  fold (scale7 (channel_sum 0 w)) (scale7 (channel_sum 1 w))
    (scale7 (channel_sum 2 w)) (scale7 (channel_sum 3 w)).
  rewrite epi32_unlanes by reflexivity.
  change (epi32 _mm_setzero_si128) with [0; 0; 0; 0].
  cbv [_mm_packus_epi16]. cbn [map app].
  rewrite epi16_unlanes by reflexivity.
  change (epi16 _mm_setzero_si128) with (repeat 0 8).
  cbn [map app repeat _mm_cvtsi128_si32 firstn].
  rewrite !Zmod_mod.
  rewrite !pack_lane by (apply cvt_ps_epi32_range).
  reflexivity.
Qed.

Lemma scale7_table :
  forallb (fun n => scale7 (Z.of_nat n) =? (2 * Z.of_nat n + 7) / 14)
    (seq 0 1786) = true.
Proof. vm_compute. reflexivity. Qed.

(** On every sum that seven 8-bit channels can reach, the float
    computation returns the integer nearest to [s / 7]. *)
Lemma scale7_exact (s : Z) : 0 <= s <= 1785 -> scale7 s = (2 * s + 7) / 14.
Proof.
  intros H. pose proof scale7_table as T.
  rewrite forallb_forall in T.
  specialize (T (Z.to_nat s)). rewrite Z2Nat.id in T by lia.
  apply Z.eqb_eq, T, in_seq. lia.
Qed.

(** ** Gathering *)

Lemma gather_holds (stk : stack) (src : buffer) (p width column : Z) :
  0 <= column < width ->
  holds (gather stk src p width column) (window stk src p width column).
Proof.
  intros Hc. unfold holds, window, gather, reads.
  change HALF_KERNEL with 3. change KERNEL_SIZE with 7.
  destruct (Z.ltb_spec column 3) as [Hl|Hl].
  - assert (K : column = 0 \/ column = 1 \/ column = 2) by lia.
    destruct K as [-> | [-> | ->]]; split; reflexivity.
  - destruct (Z.ltb_spec (width - 3) column) as [Hr|Hr].
    + assert (K : width - column = 1 \/ width - column = 2) by lia.
      unfold fill_right.
      destruct K as [-> | ->]; split; reflexivity.
    + split; reflexivity.
Qed.

(** The first seven pixels of the window are the ones that are summed;
    they are read from [src] at the offsets [reads]. *)
Lemma window_reads (stk : stack) (src : buffer) (p width column : Z) :
  0 <= column < width ->
  firstn 7 (window stk src p width column) =
  map src (firstn 7 (reads p width column)).
Proof.
  intros Hc. unfold window, reads.
  change HALF_KERNEL with 3. change KERNEL_SIZE with 7.
  destruct (Z.ltb_spec column 3) as [Hl|Hl].
  - assert (K : column = 0 \/ column = 1 \/ column = 2) by lia.
    destruct K as [-> | [-> | ->]]; reflexivity.
  - destruct (Z.ltb_spec (width - 3) column) as [Hr|Hr].
    + assert (K : width - column = 1 \/ width - column = 2) by lia.
      destruct K as [-> | ->]; reflexivity.
    + reflexivity.
Qed.

(** The two registers depend on [src] only through the offsets
    [reads]. *)
Lemma gather_reads_only (stk : stack) (src src' : buffer)
  (p width column : Z) :
  0 <= column < width ->
  (forall a, In a (reads p width column) -> src a = src' a) ->
  gather stk src p width column 0 = gather stk src' p width column 0 /\
  gather stk src p width column 1 = gather stk src' p width column 1.
Proof.
  intros Hc H.
  destruct (gather_holds stk src p width column Hc) as [A0 A1].
  destruct (gather_holds stk src' p width column Hc) as [B0 B1].
  assert (E : window stk src p width column =
              window stk src' p width column).
  { unfold window. f_equal. f_equal. apply map_ext_in. exact H. }
  rewrite A0, A1, B0, B1, E. split; reflexivity.
Qed.

(** ** The row and column loops *)

Lemma pass_sse2_loop (stk : stack) (src dst : buffer) (kernel : array F32.t)
  (width height : Z) :
  blur_impl_horizontal_pass_sse2 stk src dst kernel width height =
  pass_loop sse2_pixel stk src dst width height.
Proof. reflexivity. Qed.

Lemma pass_avx_loop (stk : stack) (src dst : buffer) (kernel : array F32.t)
  (width height : Z) :
  blur_impl_horizontal_pass_avx stk src dst kernel width height =
  pass_loop (avx_pixel (avx_kernels stk kernel) kernel) stk src dst
    width height.
Proof. reflexivity. Qed.

Lemma int_mul_exact (a b : Z) :
  - 2 ^ 31 <= a * b < 2 ^ 31 -> int_mul a b = a * b.
Proof.
  intros H. unfold int_mul. apply signed_mod; [lia|].
  change (32 - 1) with 31. exact H.
Qed.

Lemma transposed_inj (height r c r' c' : Z) :
  0 <= r < height -> 0 <= r' < height ->
  height * c + r = height * c' + r' -> c = c' /\ r = r'.
Proof. intros H1 H2 E. assert (c = c') by nia. subst. lia. Qed.

Section PassLoop.
Variable pixel : array __m128i -> Z.
Variable stk : stack.
Variables src dst : buffer.
Variables width height : Z.
Hypothesis Hw : 0 <= width.
Hypothesis Hh : 0 <= height.
Hypothesis Hfit : width * height <= 2 ^ 31 - 1.

Let inv := pass_inv pixel stk src dst width height.

Lemma pass_inner (R : Z) (st : Z * buffer) :
  0 <= R < height ->
  inv R 0 st ->
  inv (R + 1) 0
    (snd (for_lt 0 width
       (fun column '(p, d) =>
          let rgbaIn := gather stk src p width column in
          (p + 1, store d (int_mul height column + R) (pixel rgbaIn)))
       st)).
Proof.
  intros HR H0.
  match goal with
  | |- inv _ _ (snd (for_lt _ _ ?b _)) => set (body := b)
  end.
  destruct (for_lt_inv (fun C st => inv R C st) body 0 width st Hw H0)
    as [_ Hend].
  - intros C [p d] HC (Hp & Hdone & Hrest). cbn [fst snd] in *.
    subst p. unfold body, inv, pass_inv. cbn zeta. cbn [fst snd].
    rewrite int_mul_exact by nia.
    split; [|split].
    + lia.
    + intros r c (Hc & Hrc).
      destruct (Z.eq_dec (height * c + r) (height * C + R)) as [E|E].
      * rewrite E, store_eq.
        assert (0 <= r < height) by lia.
        destruct (transposed_inj height r c R C) as [-> ->]; auto.
      * rewrite store_neq by exact E. apply Hdone.
        split; [exact Hc|]. destruct Hrc as [Hrc|[-> Hlt]]; [auto|].
        right. split; [reflexivity|].
        assert (c <> C) by (intros ->; apply E; reflexivity). lia.
    + intros a Ha. rewrite store_neq.
      * apply Hrest. intros r c (Hc & Hrc). apply Ha.
        split; [exact Hc|]. destruct Hrc as [Hrc|[-> Hlt]]; [auto|].
        right. split; [reflexivity|lia].
      * apply Ha. split; [lia|]. right. split; [reflexivity|lia].
  - destruct Hend as (Hp & Hdone & Hrest). split; [|split].
    + etransitivity; [exact Hp | lia].
    + intros r c (Hc & Hrc). apply Hdone. split; [exact Hc|].
      destruct Hrc as [Hrc|[-> Hlt]]; [|lia].
      destruct (Z.eq_dec r R) as [->|]; [right|left]; lia.
    + intros a Ha. apply Hrest. intros r c (Hc & Hrc). apply Ha.
      split; [exact Hc|]. left.
      destruct Hrc as [Hrc|[-> Hlt]]; lia.
Qed.

Lemma pass_loop_inv :
  inv height 0
    (snd (for_lt 0 height
      (fun row st =>
         snd (for_lt 0 width
           (fun column '(p, d) =>
              let rgbaIn := gather stk src p width column in
              (p + 1, store d (int_mul height column + row) (pixel rgbaIn)))
           st))
      (0, dst))).
Proof.
  apply (for_lt_inv (fun R st => inv R 0 st)); [exact Hh| |].
  - split; [|split]; cbn [fst snd].
    + lia.
    + intros r c (Hc & [H|[_ H]]); lia.
    + reflexivity.
  - intros R st HR Hinv. apply pass_inner; assumption.
Qed.

(** Every position [(r, c)] of the source is answered at offset
    [height * c + r] of the destination, by the pixel computed from the
    window gathered at [r * width + c]; nothing outside the
    [width * height] pixels of the destination is written. *)
Lemma pass_loop_transposed :
  transposed_pass pixel stk src dst width height
    (pass_loop pixel stk src dst width height).
Proof.
  destruct pass_loop_inv as (_ & Hdone & Hrest). split.
  - intros r c Hr Hc. apply Hdone. split; [exact Hc|]. left. exact Hr.
  - intros a Ha. apply Hrest.
    intros r c (Hc & [Hr|[_ Hr]]) ->; [|lia]. apply Ha. nia.
Qed.
End PassLoop.

(** Whatever the sizes, a cell that is not the store index of any
    position keeps its content. *)
Lemma pass_loop_frame (pixel : array __m128i -> Z) (stk : stack)
  (src dst : buffer) (width height a : Z) :
  (forall r c, 0 <= r < height -> 0 <= c < width ->
     a <> int_mul height c + r) ->
  pass_loop pixel stk src dst width height a = dst a.
Proof.
  intros H. unfold pass_loop.
  destruct (Z_le_gt_dec height 0) as [Hh|Hh].
  - rewrite for_lt_done by lia. reflexivity.
  - match goal with
    | |- snd (snd (for_lt 0 height ?b ?s)) a = _ => set (body := b)
    end.
    destruct (for_lt_inv (fun _ st => snd st a = dst a) body 0 height
                (0, dst)) as [_ E]; [lia|reflexivity| |exact E].
    intros R st HR Hst. unfold body.
    destruct (Z_le_gt_dec width 0) as [Hw|Hw].
    + rewrite for_lt_done by lia. exact Hst.
    + match goal with
      | |- snd (snd (for_lt 0 width ?b ?s)) a = _ => set (inner := b)
      end.
      destruct (for_lt_inv (fun _ st => snd st a = dst a) inner 0 width st)
        as [_ E]; [lia|exact Hst| |exact E].
      intros C [p d] HC Hd. unfold inner. cbn [snd] in *.
      rewrite store_neq; [exact Hd|]. apply H; lia.
Qed.

(** Beyond the range of [int] the index wraps: in an image of 3 columns
    and 2^30 rows no store reaches offset [2^30 * 2 + 0] = 2^31, the place
    of row 0, column 2 were the product exact. *)
Lemma pass_loop_wraps (pixel : array __m128i -> Z) (stk : stack)
  (src dst : buffer) :
  int_mul (2 ^ 30) 2 + 0 = - 2 ^ 31 /\
  pass_loop pixel stk src dst 3 (2 ^ 30) (2 ^ 30 * 2 + 0) =
  dst (2 ^ 30 * 2 + 0).
Proof.
  split; [reflexivity|].
  apply pass_loop_frame. intros r c Hr Hc.
  assert (K : c = 0 \/ c = 1 \/ c = 2) by lia.
  destruct K as [-> | [-> | ->]];
    [change (int_mul (2 ^ 30) 0) with 0
    |change (int_mul (2 ^ 30) 1) with (2 ^ 30)
    |change (int_mul (2 ^ 30) 2) with (- 2 ^ 31)]; lia.
Qed.

(** ** One output pixel of the narrow pass *)

Lemma window_length (stk : stack) (src : buffer) (p width column : Z) :
  0 <= column < width -> length (window stk src p width column) = 8%nat.
Proof.
  intros Hc. unfold window, reads.
  change HALF_KERNEL with 3. change KERNEL_SIZE with 7.
  destruct (Z.ltb_spec column 3) as [Hl|Hl].
  - assert (K : column = 0 \/ column = 1 \/ column = 2) by lia.
    destruct K as [-> | [-> | ->]]; reflexivity.
  - destruct (Z.ltb_spec (width - 3) column) as [Hr|Hr].
    + assert (K : width - column = 1 \/ width - column = 2) by lia.
      destruct K as [-> | ->]; reflexivity.
    + reflexivity.
Qed.

Lemma sse2_pixel_window (rgbaIn : array __m128i) (w : list Z) :
  length w = 8%nat ->
  holds rgbaIn w ->
  sse2_pixel rgbaIn =
  le_combine
    (map (fun k => sat8 (scale7 (channel_sum k (firstn 7 w)))) [0; 1; 2; 3]).
Proof.
  intros Hlen H.
  do 8 (destruct w as [|? w]; [discriminate Hlen|]).
  destruct w; [|discriminate Hlen].
  apply (sse2_pixel_eq _ _ _ _ _ _ _ _ _ H).
Qed.

Lemma scale7_channel_sum (k : Z) (w : list Z) :
  length w = 7%nat ->
  scale7 (channel_sum k w) = (2 * channel_sum k w + 7) / 14 /\
  0 <= scale7 (channel_sum k w) <= 255.
Proof.
  intros Hlen. pose proof (channel_sum_bounds k w) as B.
  rewrite Hlen in B. change (255 * Z.of_nat 7) with 1785 in B.
  rewrite scale7_exact by lia. split; [reflexivity|].
  split.
  - apply Z.div_pos; lia.
  - assert ((2 * channel_sum k w + 7) / 14 < 256); [|lia].
    apply Z.div_lt_upper_bound; lia.
Qed.

Lemma sse2_pass_at (stk : stack) (src dst : buffer) (kernel : array F32.t)
  (width height r c : Z) :
  width * height <= 2 ^ 31 - 1 ->
  0 <= r < height -> 0 <= c < width ->
  blur_impl_horizontal_pass_sse2 stk src dst kernel width height
    (height * c + r) =
  le_combine
    (map (fun k =>
            sat8 (scale7 (channel_sum k
              (firstn 7 (window stk src (r * width + c) width c)))))
       [0; 1; 2; 3]).
Proof.
  intros Hfit Hr Hc. rewrite pass_sse2_loop.
  destruct (pass_loop_transposed sse2_pixel stk src dst width height
              ltac:(lia) ltac:(lia) Hfit) as [Hat _].
  rewrite Hat by assumption.
  apply sse2_pixel_window.
  - apply window_length. exact Hc.
  - apply gather_holds. exact Hc.
Qed.

(** C3.  In the narrow pass, the pixel stored at offset
    [height * column + row] of the destination has, in each of its four
    channels, the sum of that channel over the seven window pixels (the
    eighth loaded slot does not contribute), converted to [float],
    multiplied by [1/(float)7], converted back with rounding and
    saturated to 0..255; the four channels are stored packed.  On these
    sums the float computation is the integer nearest to a seventh of the
    sum.  The image is one whose [width * height] fits in an [int] (at
    most 2^31 - 1), so that the product [height * column] of the store
    index does not overflow. *)
Theorem sse2_pass_box_filter (stk : stack) (src dst : buffer)
  (kernel : array F32.t) (width height row column k : Z) :
  width * height <= 2 ^ 31 - 1 ->
  0 <= row < height -> 0 <= column < width -> 0 <= k < 4 ->
  let w := firstn 7 (window stk src (row * width + column) width column) in
  let out :=
    blur_impl_horizontal_pass_sse2 stk src dst kernel width height
      (height * column + row) in
  w = map src (firstn 7 (reads (row * width + column) width column)) /\
  length w = 7%nat /\
  out = le_combine (map (fun k => sat8 (scale7 (channel_sum k w))) [0; 1; 2; 3]) /\
  channel k out = sat8 (scale7 (channel_sum k w)) /\
  scale7 (channel_sum k w) = (2 * channel_sum k w + 7) / 14.
Proof.
  intros Hfit Hr Hc Hk w out.
  assert (Hw : w = map src (firstn 7 (reads (row * width + column) width column)))
    by (apply window_reads; exact Hc).
  assert (Hlen : length w = 7%nat).
  { unfold w. rewrite length_firstn, window_length by exact Hc. reflexivity. }
  assert (Hout : out =
    le_combine (map (fun k => sat8 (scale7 (channel_sum k w))) [0; 1; 2; 3]))
    by (apply sse2_pass_at; assumption).
  repeat split; try assumption.
  - rewrite Hout. cbn [map].
    rewrite le_combine_channel by (try apply sat8_range; exact Hk).
    assert (K : k = 0 \/ k = 1 \/ k = 2 \/ k = 3) by lia.
    destruct K as [-> | [-> | [-> | ->]]]; reflexivity.
  - apply scale7_channel_sum. exact Hlen.
Qed.

Lemma sse2_pass_box_filter_witness :
  (7 * 7 <= 2 ^ 31 - 1 /\ 0 <= 3 < 7 /\ 0 <= 5 < 7 /\ 0 <= 2 < 4) /\
  channel 2
    (blur_impl_horizontal_pass_sse2 stack_zero (fun a => 65536 * a)
       (fun _ => 0) (fun _ => F32.zero) 7 7 (7 * 5 + 3)) =
  sat8 (scale7 (channel_sum 2
    (firstn 7 (window stack_zero (fun a => 65536 * a) (3 * 7 + 5) 7 5)))).
Proof.
  split; [lia|].
  apply (sse2_pass_box_filter stack_zero (fun a => 65536 * a) (fun _ => 0)
           (fun _ => F32.zero) 7 7 3 5 2); lia.
Defined.

(** ** The orchestrators *)

Lemma pass_sse2_transposed (stk : stack) (src dst : buffer)
  (kernel : array F32.t) (width height : Z) :
  0 <= width -> 0 <= height -> width * height <= 2 ^ 31 - 1 ->
  transposed_pass sse2_pixel stk src dst width height
    (blur_impl_horizontal_pass_sse2 stk src dst kernel width height).
Proof.
  intros Hw Hh Hfit. rewrite pass_sse2_loop.
  apply pass_loop_transposed; assumption.
Qed.

Lemma pass_avx_transposed (stk : stack) (src dst : buffer)
  (kernel : array F32.t) (width height : Z) :
  0 <= width -> 0 <= height -> width * height <= 2 ^ 31 - 1 ->
  transposed_pass (avx_pixel (avx_kernels stk kernel) kernel) stk src dst
    width height
    (blur_impl_horizontal_pass_avx stk src dst kernel width height).
Proof.
  intros Hw Hh Hfit. rewrite pass_avx_loop.
  apply pass_loop_transposed; assumption.
Qed.

(** C1.  Each backend builds the kernel once and runs its horizontal pass
    twice, first on [(src, dst, width, height)] and then on
    [(dst, src, height, width)].  Each pass stores the pixel computed for
    row [r] and column [c] of its input at offset [height * c + r] of its
    output and writes nothing else.  Hence after the call [dst] holds the
    transposed result of the first pass, and [src] holds at the row-major
    offset [width * r + c] the pixel that the second pass computes at
    row [c], column [r] of [dst].  The image is one whose
    [width * height] fits in an [int] (at most 2^31 - 1), so that the
    product [height * column] of the store index does not overflow. *)
Theorem blur_impl_two_passes (expf : F32.t -> F32.t) (stk : stack)
  (src dst : buffer) (width height : Z) (sigma : F32.t) :
  1 <= width -> 1 <= height -> width * height <= 2 ^ 31 - 1 ->
  let kernel := build_kernel expf stk sigma in
  (let dst1 :=
     blur_impl_horizontal_pass_sse2 stk src dst kernel width height in
   let src2 :=
     blur_impl_horizontal_pass_sse2 stk dst1 src kernel height width in
   blur_impl_sse2 expf stk src dst width height sigma = (src2, dst1) /\
   transposed_pass sse2_pixel stk src dst width height dst1 /\
   transposed_pass sse2_pixel stk dst1 src height width src2 /\
   (forall r c, 0 <= r < height -> 0 <= c < width ->
      src2 (width * r + c) =
      sse2_pixel (gather stk dst1 (c * height + r) height r))) /\
  (let pixel := avx_pixel (avx_kernels stk kernel) kernel in
   let dst1 :=
     blur_impl_horizontal_pass_avx stk src dst kernel width height in
   let src2 :=
     blur_impl_horizontal_pass_avx stk dst1 src kernel height width in
   blur_impl_avx expf stk src dst width height sigma = (src2, dst1) /\
   transposed_pass pixel stk src dst width height dst1 /\
   transposed_pass pixel stk dst1 src height width src2 /\
   (forall r c, 0 <= r < height -> 0 <= c < width ->
      src2 (width * r + c) =
      pixel (gather stk dst1 (c * height + r) height r))).
Proof.
  intros Hw Hh Hfit kernel. split.
  - intros dst1 src2.
    assert (T2 : transposed_pass sse2_pixel stk dst1 src height width src2)
      by (apply pass_sse2_transposed; lia).
    split; [reflexivity|]. split; [apply pass_sse2_transposed; lia|].
    split; [exact T2|].
    intros r c Hr Hc. destruct T2 as [Hat _]. apply Hat; assumption.
  - intros pixel dst1 src2.
    assert (T2 : transposed_pass pixel stk dst1 src height width src2)
      by (apply pass_avx_transposed; lia).
    split; [reflexivity|]. split; [apply pass_avx_transposed; lia|].
    split; [exact T2|].
    intros r c Hr Hc. destruct T2 as [Hat _]. apply Hat; assumption.
Qed.

Lemma blur_impl_two_passes_witness :
  (1 <= 9 /\ 1 <= 8 /\ 9 * 8 <= 2 ^ 31 - 1) /\
  fst (blur_impl_sse2 (fun x => x) stack_zero ramp black 9 8
         (F32.of_Z 2)) (9 * 4 + 6) =
  sse2_pixel
    (gather stack_zero
       (snd (blur_impl_sse2 (fun x => x) stack_zero ramp black
               9 8 (F32.of_Z 2)))
       (6 * 8 + 4) 8 4).
Proof.
  split; [lia|].
  destruct (blur_impl_two_passes (fun x => x) stack_zero ramp
              black 9 8 (F32.of_Z 2)) as [(E & _ & _ & H) _];
    [lia | lia | lia |].
  rewrite E. cbn [fst snd]. apply H; lia.
Defined.

(** C9.  The narrow pass never reads its [kernel] argument, so the two
    buffers that [blur_impl_sse2] leaves do not depend on [sigma] (nor on
    [expf]): two runs that differ only in [sigma] return the same
    buffers. *)
Theorem blur_impl_sse2_sigma_independent (expf : F32.t -> F32.t) (stk : stack)
  (src dst : buffer) (width height : Z) (sigma1 sigma2 : F32.t)
  (kernel1 kernel2 : array F32.t) :
  blur_impl_horizontal_pass_sse2 stk src dst kernel1 width height =
  blur_impl_horizontal_pass_sse2 stk src dst kernel2 width height /\
  blur_impl_sse2 expf stk src dst width height sigma1 =
  blur_impl_sse2 expf stk src dst width height sigma2.
Proof. split; reflexivity. Qed.

(** C10.  For every window, each 16-bit lane of the accumulator holds,
    after each of the four [_mm_add_epi16], the exact sum of the channel
    values added so far; every lane stays at most 7 * 255 = 1785, below
    2^15; and the widened 32-bit lanes are the exact sums of each channel
    over the seven pixels. *)
Theorem sse2_accumulation_exact (rgbaIn : array __m128i)
  (p0 p1 p2 p3 p4 p5 p6 p7 : Z) :
  holds rgbaIn [p0; p1; p2; p3; p4; p5; p6; p7] ->
  (epi16 (sse2_acc16_1 rgbaIn) =
     map (fun k => channel k p0) [0; 1; 2; 3]
     ++ map (fun k => channel k p1) [0; 1; 2; 3] /\
   epi16 (sse2_acc16_2 rgbaIn) =
     map (fun k => channel k p0 + channel k p2) [0; 1; 2; 3]
     ++ map (fun k => channel k p1 + channel k p3) [0; 1; 2; 3] /\
   epi16 (sse2_acc16_3 rgbaIn) =
     map (fun k => channel k p0 + channel k p2 + channel k p4) [0; 1; 2; 3]
     ++ map (fun k => channel k p1 + channel k p3 + channel k p5)
          [0; 1; 2; 3] /\
   epi16 (sse2_acc16 rgbaIn) =
     map (fun k => channel k p0 + channel k p2 + channel k p4 + channel k p6)
       [0; 1; 2; 3]
     ++ map (fun k => channel k p1 + channel k p3 + channel k p5)
          [0; 1; 2; 3]) /\
  Forall (fun x => 0 <= x <= 7 * 255)
    (epi16 (sse2_acc16_1 rgbaIn) ++ epi16 (sse2_acc16_2 rgbaIn)
     ++ epi16 (sse2_acc16_3 rgbaIn) ++ epi16 (sse2_acc16 rgbaIn)) /\
  7 * 255 = 1785 /\ 1785 < 2 ^ 15 /\
  epi32 (sse2_acc32 rgbaIn) =
    map (fun k => channel_sum k [p0; p1; p2; p3; p4; p5; p6]) [0; 1; 2; 3].
Proof.
  intros H.
  pose proof (sse2_acc16_1_lanes _ _ _ _ _ _ _ _ _ H) as E1.
  pose proof (sse2_acc16_2_lanes _ _ _ _ _ _ _ _ _ H) as E2.
  pose proof (sse2_acc16_3_lanes _ _ _ _ _ _ _ _ _ H) as E3.
  pose proof (sse2_acc16_lanes _ _ _ _ _ _ _ _ _ H) as E4.
  split; [auto|]. split.
  - rewrite E1, E2, E3, E4. cbn [map app]. channel_bounds.
    repeat constructor; lia.
  - split; [reflexivity|]. split; [reflexivity|].
    apply (sse2_acc32_lanes _ _ _ _ _ _ _ _ _ H).
Qed.

Lemma sse2_accumulation_exact_witness :
  holds (fun k => if k =? 0 then unlanes 4 [1; 2; 3; 4]
                  else unlanes 4 [5; 6; 7; 4294967295])
    [1; 2; 3; 4; 5; 6; 7; 4294967295] /\
  epi32 (sse2_acc32 (fun k => if k =? 0 then unlanes 4 [1; 2; 3; 4]
                              else unlanes 4 [5; 6; 7; 4294967295])) =
  map (fun k => channel_sum k [1; 2; 3; 4; 5; 6; 7]) [0; 1; 2; 3].
Proof.
  assert (H : holds (fun k => if k =? 0 then unlanes 4 [1; 2; 3; 4]
                              else unlanes 4 [5; 6; 7; 4294967295])
                [1; 2; 3; 4; 5; 6; 7; 4294967295])
    by (split; reflexivity).
  split; [exact H|].
  apply (sse2_accumulation_exact _ 1 2 3 4 5 6 7 4294967295 H).
Defined.

(** ** The border policies *)

Lemma fill_left_slots (a0 : array Z) (src : buffer) (p column i : Z) :
  0 <= column < 3 -> 0 <= i <= 6 ->
  fill_left a0 src p column i =
  if i <? HALF_KERNEL - column then src (p + (HALF_KERNEL - i))
  else src (p - (HALF_KERNEL - i)).
Proof.
  intros Hc Hi.
  assert (K : column = 0 \/ column = 1 \/ column = 2) by lia.
  assert (L : i = 0 \/ i = 1 \/ i = 2 \/ i = 3 \/ i = 4 \/ i = 5 \/ i = 6)
    by lia.
  destruct K as [-> | [-> | ->]];
    destruct L as [-> | [-> | [-> | [-> | [-> | [-> | ->]]]]]];
    reflexivity.
Qed.

Lemma fill_right_slots (a0 : array Z) (src : buffer) (p width column i : Z) :
  width - 3 < column < width -> 0 <= i <= 6 ->
  fill_right a0 src p width column i =
  if i <? width - column then src (p + i)
  else src (p - (i - (width - column))).
Proof.
  intros Hc Hi.
  assert (K : width - column = 1 \/ width - column = 2) by lia.
  assert (L : i = 0 \/ i = 1 \/ i = 2 \/ i = 3 \/ i = 4 \/ i = 5 \/ i = 6)
    by lia.
  unfold fill_right.
  destruct K as [-> | ->];
    destruct L as [-> | [-> | [-> | [-> | [-> | [-> | ->]]]]]];
    reflexivity.
Qed.

(** C6.  In the left-border branch, which both passes take for the
    columns 0, 1 and 2, the registers are loaded from [_rgbaIn], whose
    slot [i] holds the pixel of the same row at column [c + (3 - i)] for
    [0 <= i < 3 - c] and at column [c + (i - 3)] for [3 - c <= i <= 6]. *)
Theorem gather_left_border (stk : stack) (src : buffer)
  (width row c i : Z) :
  7 <= width -> 0 <= c < 3 -> 0 <= i <= 6 ->
  let p := row * width + c in
  let _rgbaIn := fill_left (stk__rgbaIn stk) src p c in
  (gather stk src p width c 0 = _mm_load_si128 _rgbaIn 0 /\
   gather stk src p width c 1 = _mm_load_si128 _rgbaIn 4) /\
  (i < 3 - c -> _rgbaIn i = src (row * width + (c + (3 - i)))) /\
  (3 - c <= i -> _rgbaIn i = src (row * width + (c + (i - 3)))).
Proof.
  intros Hw Hc Hi p a. split; [|split].
  - unfold gather. replace (c <? HALF_KERNEL) with true
      by (symmetry; apply Z.ltb_lt; change HALF_KERNEL with 3; lia).
    split; reflexivity.
  - intros H. unfold a. rewrite fill_left_slots by lia.
    change HALF_KERNEL with 3.
    replace (i <? 3 - c) with true by (symmetry; apply Z.ltb_lt; lia).
    f_equal. unfold p. lia.
  - intros H. unfold a. rewrite fill_left_slots by lia.
    change HALF_KERNEL with 3.
    replace (i <? 3 - c) with false by (symmetry; apply Z.ltb_ge; lia).
    f_equal. unfold p. lia.
Qed.

Lemma gather_left_border_witness :
  (7 <= 10 /\ 0 <= 1 < 3 /\ 0 <= 1 <= 6) /\
  (1 < 3 - 1 ->
   fill_left (stk__rgbaIn stack_zero) ramp (4 * 10 + 1) 1 1 =
   4 * 10 + (1 + (3 - 1))).
Proof.
  split; [lia|].
  apply (gather_left_border stack_zero ramp 10 4 1 1); lia.
Defined.

(** C7, as the code has it.  In the right-border branch, which both
    passes take for the columns above [width - 3], the registers are
    loaded from [_rgbaIn]; its slot [j] holds the pixel of the same row at
    column [c + j] for [0 <= j < width - c], and the remaining slots walk
    backward from the current column [c]: slot [width - c + k] holds the
    pixel at column [c - k]. *)
Theorem gather_right_border (stk : stack) (src : buffer)
  (width row c i : Z) :
  7 <= width -> width - 3 < c < width -> 0 <= i <= 6 ->
  let p := row * width + c in
  let _rgbaIn := fill_right (stk__rgbaIn stk) src p width c in
  (gather stk src p width c 0 = _mm_load_si128 _rgbaIn 0 /\
   gather stk src p width c 1 = _mm_load_si128 _rgbaIn 4) /\
  (i < width - c -> _rgbaIn i = src (row * width + (c + i))) /\
  (width - c <= i ->
   _rgbaIn i = src (row * width + (c - (i - (width - c))))).
Proof.
  intros Hw Hc Hi p a. split; [|split].
  - unfold gather. change HALF_KERNEL with 3.
    replace (c <? 3) with false by (symmetry; apply Z.ltb_ge; lia).
    replace (width - 3 <? c) with true by (symmetry; apply Z.ltb_lt; lia).
    split; reflexivity.
  - intros H. unfold a. rewrite fill_right_slots by lia.
    replace (i <? width - c) with true by (symmetry; apply Z.ltb_lt; lia).
    f_equal. unfold p. lia.
  - intros H. unfold a. rewrite fill_right_slots by lia.
    replace (i <? width - c) with false by (symmetry; apply Z.ltb_ge; lia).
    f_equal. unfold p. lia.
Qed.

Lemma gather_right_border_witness :
  (7 <= 10 /\ 10 - 3 < 8 < 10 /\ 0 <= 2 <= 6) /\
  (10 - 8 <= 2 ->
   fill_right (stk__rgbaIn stack_zero) ramp (4 * 10 + 8) 10 8 2 =
   4 * 10 + (8 - (2 - (10 - 8)))).
Proof.
  split; [lia|].
  apply (gather_right_border stack_zero ramp 10 4 8 2); lia.
Defined.

(** C7 as the specification words it fails: in a row of width 10 whose
    pixel at column [x] is [x], the slots that follow the in-bounds pixels
    do not walk backward from the last loaded pixel (column 9), since at
    column 8 the first of them holds column 8; nor do they mirror about
    that pixel, since at column 9 the first of them holds column 9
    again. *)
Lemma gather_right_border_not_from_last :
  ~ (forall c k, 10 - 3 < c < 10 -> 0 <= k -> 10 - c + k <= 6 ->
       fill_right (stk__rgbaIn stack_zero) ramp c 10 c (10 - c + k) =
       ramp (10 - 1 - k)) /\
  ~ (forall c k, 10 - 3 < c < 10 -> 0 <= k -> 10 - c + k <= 6 ->
       fill_right (stk__rgbaIn stack_zero) ramp c 10 c (10 - c + k) =
       ramp (10 - 1 - (k + 1))).
Proof.
  split; intros H.
  - specialize (H 8 0 ltac:(lia) ltac:(lia) ltac:(lia)). discriminate H.
  - specialize (H 9 0 ltac:(lia) ltac:(lia) ltac:(lia)). discriminate H.
Qed.

(** ** Reads outside the row and outside the buffer *)

(** In the last row of any image at least 7 pixels wide, column
    [width - 3] takes the interior branch and reads two words past the
    [width * height] pixels. *)
Lemma reads_past_the_buffer (width height : Z) :
  7 <= width -> 1 <= height ->
  reads ((height - 1) * width + (width - 3)) width (width - 3) =
  map (fun d => width * height + d) [-6; -5; -4; -3; -2; -1; 0; 1].
Proof.
  intros Hw Hh. unfold reads. change HALF_KERNEL with 3.
  replace (width - 3 <? 3) with false by (symmetry; apply Z.ltb_ge; lia).
  replace (width - 3 <? width - 3) with false
    by (symmetry; apply Z.ltb_ge; lia).
  cbn [flat_map map app]. list_eq; lia.
Qed.

(** C4 on a 10x10 image.  Column 7 = width - 3 takes the interior branch,
    whose two unaligned loads cover the columns 4 to 11: in the last row
    they read the offsets 100 and 101, past the 100 pixels of the buffer
    (and column 6 reads offset 100); in the other rows they read the
    first two pixels of the next row.  The word at offset 100 is the
    seventh pixel of the window of row 9, column 7: it changes the pixel
    that the narrow pass stores for that position. *)
Theorem reads_past_the_buffer_10x10 :
  (HALF_KERNEL = 3 /\ (10 - HALF_KERNEL <? 7) = false) /\
  reads (9 * 10 + 7) 10 7 = [94; 95; 96; 97; 98; 99; 100; 101] /\
  reads (9 * 10 + 6) 10 6 = [93; 94; 95; 96; 97; 98; 99; 100] /\
  reads (0 * 10 + 7) 10 7 = [4; 5; 6; 7; 8; 9; 10; 11] /\
  (forall a, 0 <= a < 10 * 10 -> black_then_white a = black a) /\
  blur_impl_horizontal_pass_sse2 stack_zero black black kernel_16 10 10
    (10 * 7 + 9) = 0 /\
  blur_impl_horizontal_pass_sse2 stack_zero black_then_white black kernel_16
    10 10 (10 * 7 + 9) = 0x24242424.
Proof.
  split; [split; reflexivity|].
  do 3 (split; [reflexivity|]).
  split.
  - intros a Ha. unfold black_then_white, black.
    destruct (Z.eqb_spec a 100); [lia|reflexivity].
  - split; vm_compute; reflexivity.
Qed.

(** ** Flat images *)

(** A window of seven equal pixels is answered by that pixel: the narrow
    arithmetic itself preserves flat fields. *)
Lemma sse2_pixel_flat (rgbaIn : array __m128i) (p q : Z) :
  0 <= p < 2 ^ 32 ->
  holds rgbaIn [p; p; p; p; p; p; p; q] ->
  sse2_pixel rgbaIn = p.
Proof.
  intros Hp H. rewrite (sse2_pixel_eq _ _ _ _ _ _ _ _ _ H).
  assert (E : forall k,
            sat8 (scale7 (channel_sum k [p; p; p; p; p; p; p])) = channel k p).
  { intros k. pose proof (channel_range k p) as B.
    unfold channel_sum. cbn [map fold_right].
    rewrite scale7_exact by lia.
    replace ((2 * (channel k p + (channel k p + (channel k p + (channel k p
               + (channel k p + (channel k p + (channel k p + 0))))))) + 7)
             / 14) with (channel k p)
      by (apply Z.div_unique with 7; lia).
    unfold sat8, clamp. lia. }
  cbn [map]. rewrite !E, <- le_split_pixel.
  rewrite le_combine_split. apply Z.mod_small. exact Hp.
Qed.

(** C5 on flat red images with sigma = 2.0 and zero words around the
    buffers.  Narrow backend, 4x4: row 3 reads the offsets 16 and 17 at its
    columns 1 and 2, and row 0 reads the offsets -1 and -2 at its column 3;
    thirteen of the sixteen pixels that the call leaves in [src] are no
    longer red.  Narrow backend, 7x7: column 4 of the last row takes the
    interior branch and reads offset 49, in both passes; five pixels are
    no longer red.  Wide pass, 4x4, with the kernel (1, 2, 3, 4, 3, 2, 1)
    / 16: no pixel stays red, since the seventh pixel is multiplied by an
    unwritten cell of [kernels]. *)
Theorem flat_red_4x4_not_preserved (expf : F32.t -> F32.t) :
  map (fst (blur_impl_sse2 expf stack_zero red_4x4 black 4 4 (F32.of_Z 2)))
    (map Z.of_nat (seq 0 16)) =
  [red; 3925868778; 3758096608; 4110418165;
   red; 3925868778; 3405775051; 2885681324;
   red; 4110418165; 3841982693; 2264924295;
   3053453494; 3925868778; 3573547221; 3841982693] /\
  filter
    (fun a =>
       negb (fst (blur_impl_sse2 expf stack_zero red_7x7 black 7 7
                    (F32.of_Z 2)) a =? red))
    (map Z.of_nat (seq 0 49)) = [25; 32; 34; 39; 46] /\
  map (blur_impl_horizontal_pass_avx stack_zero red_4x4 black kernel_16 4 4)
    (map Z.of_nat (seq 0 16)) =
  [4009754863; 4009754863; 4009754863; 4009754863;
   4009754863; 4009754863; 4009754863; 3741319391;
   4009754863; 4009754863; 4009754863; 3204448447;
   3472883919; 4009754863; 4009754863; 4009754863].
Proof.
  unfold blur_impl_sse2. cbv zeta. cbn [fst].
  rewrite !pass_sse2_loop.
  split; [|split]; vm_compute; reflexivity.
Qed.

(** ** The wide pass on one window *)

(** C2 on a row of seven grey pixels (channel value 128) with the kernel
    (1, 2, 3, 4, 3, 2, 1) / 16.  The weighted sum of the specification is
    128 in every channel.  The code declares [rgbaIn] with
    [REGISTERS_CNT] = 2 cells and [kernels] with [HALF_KERNEL] = 3 cells,
    and reads [rgbaIn[2]], [rgbaIn[3]] and [kernels[3]] to [kernels[6]]:
    the seventh pixel is multiplied by the stack word [kernels[3]], and
    [kernel[6]] multiplies a pixel of [rgbaIn[3]].  With zero stack words
    the centre pixel comes out as 120 in every channel, with other stack
    words as 255. *)
Theorem avx_pass_reads_unwritten_cells :
  (REGISTERS_CNT = 2 /\ HALF_KERNEL = 3) /\
  firstn 7 (window stack_zero flat_grey (0 * 7 + 3) 7 3) =
    [grey; grey; grey; grey; grey; grey; grey] /\
  map (weighted_channel kernel_16
         (firstn 7 (window stack_zero flat_grey (0 * 7 + 3) 7 3)))
    [0; 1; 2; 3] = [128; 128; 128; 128] /\
  map (fun k =>
         channel k
           (blur_impl_horizontal_pass_avx stack_zero flat_grey black
              kernel_16 7 1 (1 * 3 + 0)))
    [0; 1; 2; 3] = [120; 120; 120; 120] /\
  map (fun k =>
         channel k
           (blur_impl_horizontal_pass_avx stack_ones flat_grey black
              kernel_16 7 1 (1 * 3 + 0)))
    [0; 1; 2; 3] = [255; 255; 255; 255].
Proof.
  split; [split; reflexivity|].
  repeat split; vm_compute; reflexivity.
Qed.

(** * The kernel in floating point *)

(** ** Powers of two *)

Lemma p2_pos (e : Z) : (0 < p2 e)%R.
Proof. unfold p2. apply powerRZ_lt. lra. Qed.

Lemma p2_add (a b : Z) : p2 (a + b) = (p2 a * p2 b)%R.
Proof. unfold p2. apply powerRZ_add. lra. Qed.

Lemma p2_0 : p2 0 = 1%R.
Proof. reflexivity. Qed.

Lemma p2_1 : p2 1 = 2%R.
Proof. unfold p2. change (powerRZ 2 1) with (2 * 1)%R. lra. Qed.

Lemma p2_m1 : p2 (-1) = (/ 2)%R.
Proof. unfold p2. change (powerRZ 2 (-1)) with (/ (2 * 1))%R. f_equal. lra. Qed.

Lemma p2_succ (e : Z) : p2 (e + 1) = (2 * p2 e)%R.
Proof. rewrite p2_add, p2_1. lra. Qed.

Lemma p2_pred (e : Z) : p2 (e - 1) = (p2 e / 2)%R.
Proof.
  replace (e - 1) with (e + -1) by lia. rewrite p2_add, p2_m1. lra.
Qed.

Lemma p2_inv (e : Z) : (p2 e * p2 (- e) = 1)%R.
Proof. rewrite <- p2_add. replace (e + - e) with 0 by lia. apply p2_0. Qed.

Lemma p2_nonneg_IZR (e : Z) : 0 <= e -> p2 e = IZR (2 ^ e).
Proof.
  intros H. unfold p2. rewrite <- (Z2Nat.id e) by lia.
  rewrite <- pow_powerRZ. rewrite <- pow_IZR. reflexivity.
Qed.

Lemma p2_le (a b : Z) : a <= b -> (p2 a <= p2 b)%R.
Proof.
  intros H. replace b with (a + (b - a)) by lia. rewrite p2_add.
  rewrite (p2_nonneg_IZR (b - a)) by lia.
  assert (H0 : 0 < 2 ^ (b - a)) by (apply Z.pow_pos_nonneg; lia).
  assert (H1 : 1 <= 2 ^ (b - a)) by lia.
  apply IZR_le in H1. pose proof (p2_pos a). nra.
Qed.

(** ** Right shifts keep track of the position *)

Lemma loc_of_shr_record_of_loc (m : Z) (l : location) :
  loc_of_shr_record (shr_record_of_loc m l) = l /\
  shr_m (shr_record_of_loc m l) = m.
Proof. destruct l as [|[| |]]; split; reflexivity. Qed.

Lemma IZR_xO (p : positive) : IZR (Zpos p~0) = (2 * IZR (Zpos p))%R.
Proof. change (Zpos p~0) with (2 * Zpos p). apply mult_IZR. Qed.

Lemma IZR_xI (p : positive) : IZR (Zpos p~1) = (2 * IZR (Zpos p) + 1)%R.
Proof.
  change (Zpos p~1) with (2 * Zpos p + 1). rewrite plus_IZR, mult_IZR. lra.
Qed.


Lemma Rabs_bounds (x a : R) : (Rabs x <= a -> - a <= x <= a)%R.
Proof. unfold Rabs. destruct (Rcase_abs x); lra. Qed.

Lemma shr_1_ok (mrs : shr_record) (y : R) :
  0 <= shr_m mrs ->
  loc_ok (shr_m mrs) (loc_of_shr_record mrs) y ->
  0 <= shr_m (shr_1 mrs) /\
  loc_ok (shr_m (shr_1 mrs)) (loc_of_shr_record (shr_1 mrs)) (y / 2).
Proof.
  destruct mrs as [m r s]. cbn [shr_m]. intros Hm H.
  destruct m as [|p|p]; [| |lia].
  - destruct r, s; cbn [shr_1 shr_m loc_of_shr_record loc_ok orb] in *;
      (split; [lia|lra]).
  - destruct p as [p|p|]; destruct r, s;
      cbn [shr_1 shr_m loc_of_shr_record loc_ok orb] in *;
      rewrite ?(IZR_xO p), ?(IZR_xI p) in H; (split; [lia|lra]).
Qed.

Lemma iter_pos_shr_1_ok (p : positive) :
  forall (mrs : shr_record) (y : R),
    0 <= shr_m mrs ->
    loc_ok (shr_m mrs) (loc_of_shr_record mrs) y ->
    0 <= shr_m (SpecFloat.iter_pos shr_1 p mrs) /\
    loc_ok (shr_m (SpecFloat.iter_pos shr_1 p mrs))
      (loc_of_shr_record (SpecFloat.iter_pos shr_1 p mrs)) (y * p2 (- Zpos p)).
Proof.
  induction p as [p IH|p IH|]; intros mrs y Hm H; cbn [SpecFloat.iter_pos].
  - destruct (shr_1_ok mrs y Hm H) as [Hm1 H1].
    destruct (IH _ _ Hm1 H1) as [Hm2 H2].
    destruct (IH _ _ Hm2 H2) as [Hm3 H3].
    split; [exact Hm3|].
    replace (y * p2 (- Zpos p~1))%R with (y / 2 * p2 (- Zpos p) * p2 (- Zpos p))%R;
      [exact H3|].
    replace (- Zpos p~1) with (-1 + (- Zpos p + - Zpos p)) by lia.
    rewrite !p2_add, p2_m1. lra.
  - destruct (IH _ _ Hm H) as [Hm2 H2].
    destruct (IH _ _ Hm2 H2) as [Hm3 H3].
    split; [exact Hm3|].
    replace (y * p2 (- Zpos p~0))%R with (y * p2 (- Zpos p) * p2 (- Zpos p))%R;
      [exact H3|].
    replace (- Zpos p~0) with (- Zpos p + - Zpos p) by lia.
    rewrite !p2_add. lra.
  - destruct (shr_1_ok mrs y Hm H) as [Hm1 H1]. split; [exact Hm1|].
    cbn [Z.opp]. rewrite p2_m1. exact H1.
Qed.

(** After [shr], the same real [X] is described at the new exponent. *)
Lemma shr_ok (mrs : shr_record) (e n : Z) (X : R) :
  0 <= shr_m mrs ->
  loc_ok (shr_m mrs) (loc_of_shr_record mrs) (X * p2 (- e)) ->
  let '(mrs', e') := shr mrs e n in
  e' = e + Z.max n 0 /\
  0 <= shr_m mrs' /\
  loc_ok (shr_m mrs') (loc_of_shr_record mrs') (X * p2 (- e')).
Proof.
  intros Hm H. unfold shr. destruct n as [|p|p].
  - split; [lia|]. split; assumption.
  - destruct (iter_pos_shr_1_ok p mrs _ Hm H) as [Hm' H'].
    split; [lia|]. split; [exact Hm'|].
    replace (- (e + Zpos p)) with (- e + - Zpos p) by lia.
    rewrite p2_add, <- Rmult_assoc. exact H'.
  - split; [lia|]. split; assumption.
Qed.

(** ** Rounding to nearest, ties to even *)

Lemma round_nearest_even_ok (m : Z) (l : location) (y : R) :
  loc_ok m l y ->
  (round_nearest_even m l = m \/ round_nearest_even m l = m + 1) /\
  (Rabs (IZR (round_nearest_even m l) - y) <= / 2)%R /\
  (l = loc_Exact -> IZR (round_nearest_even m l) = y).
Proof.
  intros H. destruct l as [|[| |]]; cbn [round_nearest_even loc_ok] in *.
  - split; [auto|]. split; [|auto]. subst y.
    rewrite Rminus_diag, Rabs_R0. lra.
  - destruct (Z.even m); (split; [auto|]); (split; [|discriminate]);
      rewrite ?plus_IZR; apply Rabs_le; lra.
  - split; [auto|]. split; [|discriminate]. apply Rabs_le; lra.
  - split; [auto|]. split; [|discriminate].
    rewrite plus_IZR. apply Rabs_le; lra.
Qed.

(** ** Number of binary digits *)

Lemma digits2_pos_bounds (p : positive) :
  2 ^ (Zpos (digits2_pos p) - 1) <= Zpos p < 2 ^ Zpos (digits2_pos p).
Proof.
  induction p as [p IH|p IH|]; cbn [digits2_pos].
  - rewrite Pos2Z.inj_succ.
    replace (Z.succ (Zpos (digits2_pos p)) - 1)
      with (1 + (Zpos (digits2_pos p) - 1)) by lia.
    rewrite Z.pow_succ_r, Z.pow_add_r by lia. lia.
  - rewrite Pos2Z.inj_succ.
    replace (Z.succ (Zpos (digits2_pos p)) - 1)
      with (1 + (Zpos (digits2_pos p) - 1)) by lia.
    rewrite Z.pow_succ_r, Z.pow_add_r by lia. lia.
  - cbn. lia.
Qed.

Lemma Zdigits2_bounds (m : Z) :
  0 < m -> 2 ^ (Zdigits2 m - 1) <= m < 2 ^ Zdigits2 m.
Proof.
  intros H. destruct m as [|p|p]; try lia. apply digits2_pos_bounds.
Qed.

Lemma Zdigits2_nonneg (m : Z) : 0 <= Zdigits2 m.
Proof. destruct m; cbn; lia. Qed.

Lemma Zdigits2_le (m : Z) (k : Z) : 0 <= k -> 0 <= m < 2 ^ k -> Zdigits2 m <= k.
Proof.
  intros Hk Hm. destruct (Z.eq_dec m 0) as [->|Hz]; [cbn; lia|].
  destruct (Zdigits2_bounds m ltac:(lia)) as [Hlo _].
  destruct (Z.le_gt_cases (Zdigits2 m) k) as [|Hgt]; [assumption|].
  assert (2 ^ k <= 2 ^ (Zdigits2 m - 1)) by (apply Z.pow_le_mono_r; lia).
  lia.
Qed.

Lemma Zdigits2_ge (m : Z) (k : Z) : 0 <= k -> 2 ^ k <= m -> k + 1 <= Zdigits2 m.
Proof.
  intros Hk Hm. assert (0 < 2 ^ k) by (apply Z.pow_pos_nonneg; lia).
  destruct (Zdigits2_bounds m ltac:(lia)) as [_ Hhi].
  destruct (Z.le_gt_cases (k + 1) (Zdigits2 m)) as [|Hgt]; [assumption|].
  assert (2 ^ Zdigits2 m <= 2 ^ k)
    by (apply Z.pow_le_mono_r; [lia|lia]).
  lia.
Qed.


Lemma shr_nop (mrs : shr_record) (e n : Z) : n <= 0 -> shr mrs e n = (mrs, e).
Proof. intros H. destruct n; try reflexivity. lia. Qed.

Lemma fexp32 (e : Z) : fexp 24 128 e = Z.max (e - 24) (-149).
Proof. reflexivity. Qed.

Lemma loc_ok_bounds (m : Z) (l : location) (y : R) :
  loc_ok m l y -> (IZR m <= y < IZR m + 1)%R.
Proof. destruct l as [|[| |]]; cbn [loc_ok]; lra. Qed.

(** ** The rounding step of every binary32 operation *)

Lemma round_aux_ok (sx : bool) (mx ex : Z) (lx : location) (X : R) :
  0 <= mx ->
  loc_ok mx lx (X * p2 (- ex)) ->
  ex <= fexp 24 128 (Zdigits2 mx + ex) ->
  let er := fexp 24 128 (Zdigits2 mx + ex) in
  match binary_round_aux 24 128 sx mx ex lx with
  | S754_zero s =>
      s = sx /\ (X <= p2 (er - 1))%R /\
      (lx = loc_Exact -> ex = er -> X = 0%R)
  | S754_finite s m e =>
      s = sx /\ er <= e /\
      (Rabs (IZR (Zpos m) * p2 e - X) <= p2 (er - 1))%R /\
      (lx = loc_Exact -> ex = er -> (IZR (Zpos m) * p2 e)%R = X)
  | S754_infinity s => s = sx /\ (p2 104 <= X)%R
  | S754_nan => False
  end.
Proof.
  intros Hmx Hloc Hex er.
  assert (Her : -149 <= er) by (unfold er; rewrite fexp32; lia).
  assert (Hd : er >= Zdigits2 mx + ex - 24) by (unfold er; rewrite fexp32; lia).
  unfold binary_round_aux, shr_fexp. fold er.
  (* first shift *)
  pose proof (shr_ok (shr_record_of_loc mx lx) ex (er - ex) X) as S1.
  destruct (loc_of_shr_record_of_loc mx lx) as [El Em].
  rewrite El, Em in S1. specialize (S1 Hmx Hloc).
  assert (Hnop : ex = er -> shr (shr_record_of_loc mx lx) ex (er - ex) =
                            (shr_record_of_loc mx lx, ex))
    by (intros E; apply shr_nop; lia).
  destruct (shr (shr_record_of_loc mx lx) ex (er - ex)) as [mrs' e'] eqn:E1.
  destruct S1 as (He' & Hm' & Hloc').
  assert (Ee : e' = er) by lia. clear He'. subst e'.
  set (m' := shr_m mrs') in *. set (l' := loc_of_shr_record mrs') in *.
  set (y' := (X * p2 (- er))%R) in *.
  (* the shifted mantissa has at most 24 digits *)
  assert (Hm24 : m' < 2 ^ 24).
  { apply lt_IZR. rewrite <- (p2_nonneg_IZR 24) by lia.
    pose proof (loc_ok_bounds _ _ _ Hloc') as B'.
    pose proof (loc_ok_bounds _ _ _ Hloc) as B.
    assert (Hmx1 : (IZR mx + 1 <= p2 (Zdigits2 mx))%R).
    { rewrite p2_nonneg_IZR by apply Zdigits2_nonneg.
      rewrite <- plus_IZR. apply IZR_le.
      destruct (Z.eq_dec mx 0) as [->|]; [cbn; lia|].
      pose proof (Zdigits2_bounds mx ltac:(lia)). lia. }
    assert (Hy : (y' < p2 (Zdigits2 mx + ex - er))%R).
    { unfold y'.
      replace (Zdigits2 mx + ex - er) with (Zdigits2 mx + (ex + - er)) by lia.
      rewrite !p2_add.
      pose proof (p2_pos (- er)). pose proof (p2_pos ex).
      pose proof (p2_inv ex).
      assert (H2 : (X * p2 (- ex) * p2 ex < (IZR mx + 1) * p2 ex)%R)
        by (apply Rmult_lt_compat_r; lra).
      assert (H3 : ((IZR mx + 1) * p2 ex <= p2 (Zdigits2 mx) * p2 ex)%R)
        by (apply Rmult_le_compat_r; lra).
      assert (H4 : (X * p2 (- ex) * p2 ex = X)%R).
      { rewrite Rmult_assoc, (Rmult_comm (p2 (- ex))), H1. lra. }
      assert (H5 : (X < p2 (Zdigits2 mx) * p2 ex)%R) by lra.
      assert (H6 : (X * p2 (- er) < p2 (Zdigits2 mx) * p2 ex * p2 (- er))%R)
        by (apply Rmult_lt_compat_r; lra).
      lra. }
    pose proof (p2_le (Zdigits2 mx + ex - er) 24 ltac:(lia)). lra. }
  destruct (round_nearest_even_ok m' l' y' Hloc') as (Hm1 & Herr & Hexact).
  set (m1 := round_nearest_even m' l') in *.
  assert (Hm1r : 0 <= m1 <= 2 ^ 24) by lia.
  (* the error of the rounded mantissa at exponent [er] *)
  assert (Herr' : (Rabs (IZR m1 * p2 er - X) <= p2 (er - 1))%R).
  { replace (IZR m1 * p2 er - X)%R with ((IZR m1 - y') * p2 er)%R.
    - rewrite Rabs_mult, (Rabs_pos_eq (p2 er)) by (apply Rlt_le, p2_pos).
      rewrite p2_pred. pose proof (p2_pos er). nra.
    - unfold y'. pose proof (p2_inv er). rewrite Rmult_minus_distr_r.
      rewrite Rmult_assoc, (Rmult_comm (p2 (- er))), H. lra. }
  assert (Hexact' : lx = loc_Exact -> ex = er -> (IZR m1 * p2 er)%R = X).
  { intros El' E. pose proof (Hnop E) as Q. injection Q as Q1 _.
    assert (Hl : l' = loc_Exact) by (unfold l'; rewrite Q1, El; exact El').
    rewrite (Hexact Hl). unfold y'.
    pose proof (p2_inv er) as H.
    rewrite Rmult_assoc, (Rmult_comm (p2 (- er))), H. lra. }
  (* second shift *)
  destruct (Z.eq_dec m1 (2 ^ 24)) as [E24|N24].
  - rewrite E24. change (Zdigits2 (2 ^ 24)) with 25.
    rewrite fexp32. replace (Z.max (25 + er - 24) (-149) - er) with 1 by lia.
    cbn [shr shr_record_of_loc SpecFloat.iter_pos shr_1 shr_m Z.pow Z.pow_pos
         Pos.iter Z.mul Pos.mul].
    change (128 - 24) with 104.
    rewrite E24 in Herr', Hexact'.
    destruct (Z.leb_spec (er + 1) 104) as [Hle|Hgt].
    + assert (Ev : (IZR (Zpos 8388608) * p2 (er + 1) =
                    IZR (2 ^ 24) * p2 er)%R).
      { rewrite p2_succ. change (2 ^ 24) with (2 * 8388608).
        rewrite mult_IZR. lra. }
      split; [reflexivity|]. split; [lia|]. rewrite Ev. split; assumption.
    + split; [reflexivity|].
      apply Rabs_bounds in Herr'. rewrite p2_pred in Herr'.
      pose proof (p2_le 104 er ltac:(lia)) as Hmono.
      pose proof (p2_pos 104). change (IZR (2 ^ 24)) with 16777216%R in Herr'.
      nra.
  - assert (Hdig : Zdigits2 m1 <= 24) by (apply Zdigits2_le; lia).
    rewrite shr_nop by (rewrite fexp32; lia).
    rewrite (proj2 (loc_of_shr_record_of_loc m1 loc_Exact)).
    change (128 - 24) with 104.
    destruct m1 as [|p|p]; [| |lia].
    + split; [reflexivity|]. split.
      * rewrite Rmult_0_l, Rminus_0_l, Rabs_Ropp in Herr'.
        pose proof (Rle_abs X). lra.
      * intros E1' E2'. rewrite <- (Hexact' E1' E2'). lra.
    + destruct (Z.leb_spec er 104) as [Hle|Hgt].
      * split; [reflexivity|]. split; [lia|]. split; assumption.
      * split; [reflexivity|].
        apply Rabs_bounds in Herr'. rewrite p2_pred in Herr'.
        pose proof (p2_le 105 er ltac:(lia)) as Hmono.
        replace 105 with (104 + 1) in Hmono by lia.
        rewrite p2_succ in Hmono. pose proof (p2_pos 104).
        assert (1 <= IZR (Zpos p))%R by (apply IZR_le; lia).
        nra.
Qed.


Lemma val_nonneg (x : spec_float) : nonneg_finite x -> (0 <= val x)%R.
Proof.
  destruct x as [s|s| |[|] m e]; cbn [nonneg_finite val]; try tauto; try lra.
  intros _. pose proof (p2_pos e).
  assert (0 < IZR (Zpos m))%R by (apply IZR_lt; lia). nra.
Qed.

Lemma Zdigits2_unique (m k : Z) :
  0 < m -> 2 ^ (k - 1) <= m < 2 ^ k -> Zdigits2 m = k.
Proof.
  intros Hm [Hlo Hhi].
  assert (Hk : 0 < k).
  { destruct (Z.le_gt_cases k 0) as [Hk|Hk]; [|exact Hk].
    assert (2 ^ k <= 2 ^ 0) by (apply Z.pow_le_mono_r; lia).
    change (2 ^ 0) with 1 in *. lia. }
  pose proof (Zdigits2_le m k ltac:(lia) ltac:(lia)).
  pose proof (Zdigits2_ge m (k - 1) ltac:(lia) Hlo). lia.
Qed.

Lemma Zdigits2_shift (m k : Z) :
  0 < m -> 0 <= k -> Zdigits2 (m * 2 ^ k) = Zdigits2 m + k.
Proof.
  intros Hm Hk. pose proof (Zdigits2_bounds m Hm) as [Hlo Hhi].
  assert (0 < 2 ^ k) by (apply Z.pow_pos_nonneg; lia).
  assert (Hd : 0 < Zdigits2 m).
  { destruct m; try lia. cbn. lia. }
  apply Zdigits2_unique; [nia|].
  replace (Zdigits2 m + k - 1) with ((Zdigits2 m - 1) + k) by lia.
  rewrite !Z.pow_add_r by lia. nia.
Qed.

Lemma iter_xO (d : positive) (m : positive) :
  Zpos (Pos.iter xO m d) = Zpos m * 2 ^ Zpos d.
Proof.
  induction d as [|d IH] using Pos.peano_ind.
  - cbn. lia.
  - rewrite Pos.iter_succ, Pos2Z.inj_succ, Z.pow_succ_r by lia.
    rewrite Pos2Z.inj_xO, IH. lia.
Qed.

Lemma shl_align_spec (mx : positive) (ex ex' : Z) :
  let '(mz, ez) := shl_align mx ex ex' in
  ez = Z.min ex ex' /\ Zpos mz = Zpos mx * 2 ^ (ex - ez).
Proof.
  unfold shl_align. destruct (ex' - ex) as [|d|d] eqn:E.
  - split; [lia|]. replace (ex - ex) with 0 by lia. cbn. lia.
  - split; [lia|]. replace (ex - ex) with 0 by lia. cbn. lia.
  - split; [lia|]. rewrite iter_xO. f_equal. f_equal. lia.
Qed.

Lemma IZR_p2 (m e k : Z) :
  0 <= k -> (IZR (m * 2 ^ k) * p2 (e - k) = IZR m * p2 e)%R.
Proof.
  intros Hk. rewrite mult_IZR, <- p2_nonneg_IZR by lia.
  replace e with (k + (e - k)) at 2 by lia. rewrite p2_add. lra.
Qed.

(** The value [X = m * 2^e] rounded by [binary_round]. *)
Lemma binary_round_ok (m : positive) (e : Z) :
  -149 <= e ->
  let X := (IZR (Zpos m) * p2 e)%R in
  match binary_round 24 128 false m e with
  | S754_zero _ => False
  | S754_finite s m' e' =>
      s = false /\ -149 <= e' /\
      (Rabs (IZR (Zpos m') * p2 e' - X) <= p2 (-24) * X)%R
  | S754_infinity s => s = false
  | S754_nan => False
  end.
Proof.
  intros He X. unfold binary_round.
  set (er := fexp 24 128 (Zpos (digits2_pos m) + e)).
  pose proof (shl_align_spec m e er) as A.
  destruct (shl_align m e er) as [mz ez]. destruct A as [Ez Emz].
  pose proof (digits2_pos_bounds m) as [Dlo Dhi].
  assert (HX : (p2 (Zpos (digits2_pos m) - 1 + e) <= X)%R).
  { unfold X. rewrite p2_add. pose proof (p2_pos e).
    rewrite p2_nonneg_IZR by lia. apply IZR_le in Dlo. nra. }
  assert (HXpos : (0 < X)%R).
  { pose proof (p2_pos (Zpos (digits2_pos m) - 1 + e)). lra. }
  assert (Hval : (IZR (Zpos mz) * p2 ez)%R = X).
  { unfold X. rewrite Emz. replace ez with (e - (e - ez)) at 2 by lia.
    apply IZR_p2. lia. }
  assert (Hdz : Zdigits2 (Zpos mz) + ez = Zpos (digits2_pos m) + e).
  { rewrite Emz, Zdigits2_shift by lia. cbn [Zdigits2]. lia. }
  pose proof (round_aux_ok false (Zpos mz) ez loc_Exact X) as R.
  rewrite Hdz in R. fold er in R. cbn zeta in R.
  assert (Hloc : loc_ok (Zpos mz) loc_Exact (X * p2 (- ez))).
  { cbn [loc_ok]. rewrite <- Hval, Rmult_assoc, p2_inv. lra. }
  specialize (R ltac:(lia) Hloc ltac:(lia)).
  assert (Her : er = Z.max (Zpos (digits2_pos m) + e - 24) (-149))
    by reflexivity.
  destruct (binary_round_aux 24 128 false (Zpos mz) ez loc_Exact)
    as [s|s| |s m' e'].
  - destruct R as (_ & Hle & Hex).
    destruct (Z.eq_dec ez er) as [E|N].
    + specialize (Hex eq_refl E). lra.
    + assert (er - 1 <= Zpos (digits2_pos m) - 1 + e - 1) by lia.
      pose proof (p2_le _ _ H).
      rewrite (p2_pred (Zpos (digits2_pos m) - 1 + e)) in H0.
      pose proof (p2_pos (Zpos (digits2_pos m) - 1 + e)). lra.
  - exact (proj1 R).
  - exact R.
  - destruct R as (Hs & Hee & Herr & Hex).
    split; [exact Hs|]. split; [lia|].
    destruct (Z.eq_dec ez er) as [E|N].
    + rewrite (Hex eq_refl E), Rminus_diag, Rabs_R0.
      pose proof (p2_pos (-24)). nra.
    + assert (E : er - 1 = -24 + (Zpos (digits2_pos m) - 1 + e)) by lia.
      rewrite E, p2_add in Herr. pose proof (p2_pos (-24)). nra.
Qed.


(** ** Addition of two non-negative floats *)

Lemma Rabs_diff_0 (a b c : R) : a = b -> (0 <= c)%R -> (Rabs (a - b) <= c)%R.
Proof. intros -> H. rewrite Rminus_diag, Rabs_R0. exact H. Qed.

Lemma add_ok (x y : spec_float) :
  nonneg_finite x -> nonneg_finite y ->
  F32.add x y = S754_infinity false \/
  (nonneg_finite (F32.add x y) /\
   (Rabs (val (F32.add x y) - (val x + val y)) <=
    p2 (-24) * (val x + val y))%R).
Proof.
  intros Hx Hy. pose proof (p2_pos (-24)) as Hu.
  destruct x as [sx|sx| |[|] mx ex]; cbn [nonneg_finite] in Hx; try tauto;
    destruct y as [sy|sy| |[|] my ey]; cbn [nonneg_finite] in Hy; try tauto.
  - right. unfold F32.add, SFadd.
    destruct sx, sy; cbn [nonneg_finite val]; (split; [exact I|]);
      apply Rabs_diff_0; lra.
  - right. unfold F32.add, SFadd. cbn [nonneg_finite]. split; [exact Hy|].
    pose proof (val_nonneg (S754_finite false my ey) Hy).
    apply Rabs_diff_0; cbn [val] in *; nra.
  - right. unfold F32.add, SFadd. cbn [nonneg_finite]. split; [exact Hx|].
    pose proof (val_nonneg (S754_finite false mx ex) Hx).
    apply Rabs_diff_0; cbn [val] in *; nra.
  - unfold F32.add, SFadd. cbn [cond_Zopp].
    set (ez := Z.min ex ey).
    pose proof (shl_align_spec mx ex ez) as Ax.
    pose proof (shl_align_spec my ey ez) as Ay.
    destruct (shl_align mx ex ez) as [mx' ex'].
    destruct (shl_align my ey ez) as [my' ey'].
    destruct Ax as [Ex Emx]. destruct Ay as [Ey Emy]. cbn [fst].
    assert (Ex' : ex' = ez) by lia. assert (Ey' : ey' = ez) by lia.
    clear Ex Ey. subst ex' ey'.
    change (Zpos mx' + Zpos my') with (Zpos (mx' + my')).
    cbn [binary_normalize].
    pose proof (binary_round_ok (mx' + my') ez ltac:(lia)) as R.
    cbn zeta in R.
    assert (EX : (IZR (Zpos (mx' + my')) * p2 ez)%R =
                 (val (S754_finite false mx ex) +
                  val (S754_finite false my ey))%R).
    { cbn [val]. rewrite Pos2Z.inj_add, plus_IZR, Emx, Emy.
      rewrite Rmult_plus_distr_r.
      pose proof (IZR_p2 (Zpos mx) ex (ex - ez) ltac:(lia)) as Hx1.
      pose proof (IZR_p2 (Zpos my) ey (ey - ez) ltac:(lia)) as Hy1.
      replace (ex - (ex - ez)) with ez in Hx1 by lia.
      replace (ey - (ey - ez)) with ez in Hy1 by lia.
      rewrite Hx1, Hy1. lra. }
    rewrite EX in R. unfold F32.prec, F32.emax.
    destruct (binary_round 24 128 false (mx' + my') ez) as [s|s| |s m e].
    + contradiction.
    + left. subst s. reflexivity.
    + contradiction.
    + right. destruct R as (-> & He & Herr). split; [exact He|].
      cbn [val] in *. rewrite Rmult_1_l. exact Herr.
Qed.


(** ** Division of a non-negative float by a positive one *)

Lemma new_location_ok (n k q : Z) :
  0 < n -> 0 <= k < n ->
  loc_ok q (new_location n k) (IZR q + IZR k / IZR n).
Proof.
  intros Hn Hk.
  assert (Hn' : (0 < IZR n)%R) by (apply IZR_lt; lia).
  set (t := (IZR k / IZR n)%R).
  assert (Hdiv : forall a : R, (a * IZR n = IZR k -> t = a)%R).
  { intros a H. unfold t. rewrite <- H. field. lra. }
  assert (Hlt : forall c : R, (IZR k < c * IZR n -> t < c)%R).
  { intros c H. apply (Rmult_lt_reg_r (IZR n)); [exact Hn'|].
    unfold t, Rdiv. rewrite Rmult_assoc, Rinv_l by lra. lra. }
  assert (Hgt : forall c : R, (c * IZR n < IZR k -> c < t)%R).
  { intros c H. apply (Rmult_lt_reg_r (IZR n)); [exact Hn'|].
    unfold t, Rdiv. rewrite Rmult_assoc, Rinv_l by lra. lra. }
  assert (Ht0 : k = 0 -> t = 0%R).
  { intros ->. unfold t, Rdiv. lra. }
  clearbody t.
  unfold new_location.
  destruct (Z.even n) eqn:Ev; unfold new_location_even, new_location_odd;
    (destruct (Z.eqb_spec k 0) as [E0|Hk0];
     [rewrite (Ht0 E0); cbn [loc_ok]; lra|]).
  - assert (Hkpos : (0 < IZR k)%R) by (apply IZR_lt; lia).
    assert (H0 : (0 < t)%R) by (apply Hgt; rewrite Rmult_0_l; exact Hkpos).
    assert (H1 : (t < 1)%R)
      by (apply Hlt; rewrite Rmult_1_l; apply IZR_lt; lia).
    destruct (Z.compare_spec (2 * k) n) as [E|L|G]; cbn [loc_ok].
    + assert (t = / 2)%R; [|lra].
      apply Hdiv. rewrite <- E, mult_IZR. lra.
    + apply IZR_lt in L. rewrite mult_IZR in L.
      assert (t < / 2)%R by (apply Hlt; lra). lra.
    + apply IZR_lt in G. rewrite mult_IZR in G.
      assert (/ 2 < t)%R by (apply Hgt; lra). lra.
  - assert (Hkpos : (0 < IZR k)%R) by (apply IZR_lt; lia).
    assert (H0 : (0 < t)%R) by (apply Hgt; rewrite Rmult_0_l; exact Hkpos).
    assert (H1 : (t < 1)%R)
      by (apply Hlt; rewrite Rmult_1_l; apply IZR_lt; lia).
    assert (Hodd : 2 * k <> n).
    { intros <-. rewrite Z.even_mul in Ev. discriminate Ev. }
    destruct (Z.compare_spec (2 * k + 1) n) as [E|L|G]; cbn [loc_ok].
    + assert (L : 2 * k < n) by lia.
      apply IZR_lt in L. rewrite mult_IZR in L.
      assert (t < / 2)%R by (apply Hlt; lra). lra.
    + assert (L' : 2 * k < n) by lia.
      apply IZR_lt in L'. rewrite mult_IZR in L'.
      assert (t < / 2)%R by (apply Hlt; lra). lra.
    + assert (G' : n < 2 * k) by lia.
      apply IZR_lt in G'. rewrite mult_IZR in G'.
      assert (/ 2 < t)%R by (apply Hgt; lra). lra.
Qed.

(** The half unit in the last place is at most a relative 2^-24 or an
    absolute 2^-150. *)
Lemma half_ulp_bound (q e : Z) (X : R) :
  0 <= q -> (IZR q * p2 e <= X)%R ->
  e <= fexp 24 128 (Zdigits2 q + e) ->
  (p2 (fexp 24 128 (Zdigits2 q + e) - 1) <= p2 (-24) * X + p2 (-150))%R.
Proof.
  intros Hq HX He. rewrite fexp32 in *.
  pose proof (p2_pos (-24)). pose proof (p2_pos (-150)). pose proof (p2_pos e).
  assert (HX0 : (0 <= X)%R).
  { apply IZR_le in Hq. nra. }
  destruct (Z.max_spec (Zdigits2 q + e - 24) (-149)) as [[_ ->]|[Hm ->]].
  - change (-149 - 1) with (-150). nra.
  - destruct (Z.eq_dec q 0) as [->|Hq0];
      [change (Zdigits2 0) with 0 in *; lia|].
    pose proof (Zdigits2_bounds q ltac:(lia)) as [Hlo _].
    assert (Hd : 0 < Zdigits2 q) by (destruct q; cbn; lia).
    replace (Zdigits2 q + e - 24 - 1) with (-24 + (Zdigits2 q - 1 + e)) by lia.
    rewrite !p2_add, (p2_nonneg_IZR (Zdigits2 q - 1)) by lia.
    apply IZR_le in Hlo.
    assert (H2 : (IZR (2 ^ (Zdigits2 q - 1)) * p2 e <= X)%R).
    { apply Rle_trans with (IZR q * p2 e)%R; [|exact HX].
      apply Rmult_le_compat_r; lra. }
    assert (H3 : (p2 (-24) * (IZR (2 ^ (Zdigits2 q - 1)) * p2 e) <=
                  p2 (-24) * X)%R)
      by (apply Rmult_le_compat_l; lra).
    lra.
Qed.

Lemma div_ok (x : spec_float) (my : positive) (ey : Z) :
  nonneg_finite x ->
  let y := S754_finite false my ey in
  (F32.div x y = S754_infinity false /\ (p2 104 <= val x / val y)%R) \/
  ((match F32.div x y with
    | S754_zero _ | S754_finite false _ _ => True
    | _ => False
    end) /\
   (Rabs (val (F32.div x y) - val x / val y) <=
    p2 (-24) * (val x / val y) + p2 (-150))%R).
Proof.
  intros Hx y. pose proof (p2_pos (-24)) as Hu. pose proof (p2_pos (-150)) as Hn.
  assert (Hy : (0 < val y)%R).
  { cbn [val y]. pose proof (p2_pos ey).
    assert (0 < IZR (Zpos my))%R by (apply IZR_lt; lia). nra. }
  destruct x as [sx|sx| |[|] mx ex]; cbn [nonneg_finite] in Hx; try tauto.
  - right. unfold F32.div, SFdiv, y. cbn [val]. split; [exact I|].
    apply Rabs_diff_0; unfold Rdiv; nra.
  - unfold F32.div, SFdiv, y, SFdiv_core_binary. cbn [xorb].
    unfold F32.prec, F32.emax.
    set (d1 := Zdigits2 (Zpos mx)). set (d2 := Zdigits2 (Zpos my)).
    set (e' := Z.min (fexp 24 128 (d1 + ex - (d2 + ey))) (ex - ey)).
    set (s := ex - ey - e').
    assert (Hs : 0 <= s) by (unfold s, e'; lia).
    set (m' := match s with
               | 0 => Zpos mx
               | Zpos _ => Z.shiftl (Zpos mx) s
               | Zneg _ => 0
               end).
    assert (Em' : m' = Zpos mx * 2 ^ s).
    { unfold m'. destruct s as [|p|p] eqn:Es; [cbn; lia| |lia].
      apply Z.shiftl_mul_pow2. lia. }
    pose proof (Z.div_eucl_eq m' (Zpos my) ltac:(lia)) as Hqr.
    pose proof (Z.mod_pos_bound m' (Zpos my) ltac:(lia)) as Hr.
    unfold Z.modulo in Hr.
    destruct (Z.div_eucl m' (Zpos my)) as [q r] eqn:Eqr.
    assert (H2s : 0 < 2 ^ s) by (apply Z.pow_pos_nonneg; lia).
    assert (Hq : 0 <= q) by nia.
    (* the exact quotient *)
    set (X := (val (S754_finite false mx ex) / val (S754_finite false my ey))%R).
    assert (HXq : (X * p2 (- e') = IZR q + IZR r / IZR (Zpos my))%R).
    { unfold X. cbn [val].
      assert (Hmy : (0 < IZR (Zpos my))%R) by (apply IZR_lt; lia).
      assert (Hm : (IZR (Zpos mx) * p2 s = IZR q * IZR (Zpos my) + IZR r)%R).
      { rewrite p2_nonneg_IZR, <- !mult_IZR, <- plus_IZR by lia.
        f_equal. lia. }
      pose proof (p2_pos ey). pose proof (p2_pos ex).
      assert (Hp : (p2 ex * p2 (- e') = p2 s * p2 ey)%R).
      { rewrite <- !p2_add. f_equal. unfold s. lia. }
      field_simplify_eq; [|lra].
      replace (IZR (Zpos mx) * p2 ex * p2 (- e'))%R
        with (IZR (Zpos mx) * (p2 ex * p2 (- e')))%R by ring.
      rewrite Hp. nra. }
    assert (Hloc : loc_ok q (new_location (Zpos my) r) (X * p2 (- e'))).
    { rewrite HXq. apply new_location_ok; lia. }
    assert (HXlo : (IZR q * p2 e' <= X)%R).
    { pose proof (loc_ok_bounds _ _ _ Hloc) as [B _].
      pose proof (p2_pos e') as P1. pose proof (p2_inv e') as P2.
      assert (P3 : (IZR q * p2 e' <= X * p2 (- e') * p2 e')%R)
        by (apply Rmult_le_compat_r; lra).
      replace (X * p2 (- e') * p2 e')%R with (X * (p2 e' * p2 (- e')))%R in P3
        by ring.
      rewrite P2 in P3. lra. }
    (* enough digits *)
    assert (Hpre : e' <= fexp 24 128 (Zdigits2 q + e')).
    { rewrite fexp32. destruct (Z.le_gt_cases e' (-149)); [lia|].
      assert (He24 : e' <= d1 + ex - (d2 + ey) - 24)
        by (unfold e'; rewrite fexp32; unfold e' in H; rewrite fexp32 in H; lia).
      pose proof (digits2_pos_bounds mx) as [Hlo1 _].
      pose proof (digits2_pos_bounds my) as [_ Hhi2].
      fold (Zdigits2 (Zpos mx)) in Hlo1. fold (Zdigits2 (Zpos my)) in Hhi2.
      fold d1 in Hlo1. fold d2 in Hhi2.
      assert (Hd1 : 0 < d1) by (unfold d1; cbn; lia).
      assert (Hd2 : 0 < d2) by (unfold d2; cbn; lia).
      assert (Hq23 : 2 ^ 23 <= q).
      { assert (Hexp : 2 ^ (23 + d2) <= m').
        { rewrite Em'.
          assert (Hmono : 2 ^ (23 + d2) <= 2 ^ ((d1 - 1) + s))
            by (apply Z.pow_le_mono_r; unfold s; lia).
          rewrite (Z.pow_add_r 2 (d1 - 1) s) in Hmono by lia.
          assert (2 ^ (d1 - 1) * 2 ^ s <= Zpos mx * 2 ^ s)
            by (apply Z.mul_le_mono_nonneg_r; lia).
          lia. }
        rewrite Z.pow_add_r in Hexp by lia.
        destruct (Z.le_gt_cases (2 ^ 23) q) as [|Hlt]; [assumption|].
        assert (0 < 2 ^ d2) by (apply Z.pow_pos_nonneg; lia).
        nia. }
      pose proof (Zdigits2_ge q 23 ltac:(lia) Hq23). lia. }
    pose proof (round_aux_ok false q e' (new_location (Zpos my) r) X
                  Hq Hloc Hpre) as R.
    cbn zeta in R.
    pose proof (half_ulp_bound q e' X Hq HXlo Hpre) as HB.
    fold X.
    destruct (binary_round_aux 24 128 false q e' (new_location (Zpos my) r))
      as [s0|s0| |s0 m0 e0].
    + right. split; [exact I|]. destruct R as (_ & Hle & _). cbn [val].
      rewrite Rminus_0_l, Rabs_Ropp.
      assert (HX0 : (0 <= X)%R).
      { pose proof (p2_pos e'). apply IZR_le in Hq. nra. }
      rewrite Rabs_pos_eq by exact HX0. lra.
    + left. destruct R as [-> HR]. split; [reflexivity|exact HR].
    + contradiction.
    + right. destruct R as (-> & _ & Herr & _). split; [exact I|].
      cbn [val]. rewrite Rmult_1_l. lra.
Qed.


(** ** Summation *)

Lemma rsum_nonneg (ws : list spec_float) :
  Forall nonneg_finite ws -> (0 <= rsum ws)%R.
Proof.
  induction 1 as [|w ws Hw _ IH]; cbn [rsum map fold_right]; [lra|].
  pose proof (val_nonneg w Hw). unfold rsum in IH. lra.
Qed.

Lemma add_inf_l (y : spec_float) :
  nonneg_finite y -> F32.add (S754_infinity false) y = S754_infinity false.
Proof. destruct y as [s|s| |[|] m e]; cbn; tauto. Qed.

Lemma fold_add_inf (ws : list spec_float) :
  Forall nonneg_finite ws ->
  fold_left F32.add ws (S754_infinity false) = S754_infinity false.
Proof.
  induction 1 as [|w ws Hw _ IH]; cbn [fold_left]; [reflexivity|].
  rewrite add_inf_l by exact Hw. exact IH.
Qed.

Lemma p2_m24 : p2 (-24) = (/ 16777216)%R.
Proof.
  pose proof (p2_inv 24) as H. rewrite (p2_nonneg_IZR 24) in H by lia.
  change (IZR (2 ^ 24)) with 16777216%R in H.
  change (- (24)) with (-24) in H. lra.
Qed.

Lemma fold_add_ok (ws : list spec_float) :
  Forall nonneg_finite ws ->
  forall acc, nonneg_finite acc ->
    fold_left F32.add ws acc = S754_infinity false \/
    (nonneg_finite (fold_left F32.add ws acc) /\
     ((1 - p2 (-24)) ^ length ws * (val acc + rsum ws) <=
      val (fold_left F32.add ws acc) <=
      (1 + p2 (-24)) ^ length ws * (val acc + rsum ws))%R).
Proof.
  pose proof p2_m24 as Hu.
  induction 1 as [|w ws Hw Hws IH]; intros acc Hacc.
  - right. split; [exact Hacc|]. cbn [fold_left length pow rsum map fold_right].
    lra.
  - cbn [fold_left]. destruct (add_ok acc w Hacc Hw) as [Einf|[Hnn Herr]].
    + left. rewrite Einf. apply fold_add_inf. exact Hws.
    + destruct (IH _ Hnn) as [Einf|[Hnn' [Hlo Hhi]]]; [left; exact Einf|].
      right. split; [exact Hnn'|].
      pose proof (val_nonneg acc Hacc) as Va.
      pose proof (val_nonneg w Hw) as Vw.
      pose proof (rsum_nonneg ws Hws) as Vr.
      apply Rabs_bounds in Herr.
      cbn [length pow rsum map fold_right]. fold (rsum ws).
      set (A := (val acc + val w)%R) in *.
      set (a' := val (F32.add acc w)) in *.
      set (r := rsum ws) in *.
      set (u := p2 (-24)) in *.
      assert (Hlo1 : (0 <= (1 - u) ^ length ws)%R) by (apply pow_le; lra).
      assert (Hhi1 : (0 <= (1 + u) ^ length ws)%R) by (apply pow_le; lra).
      split.
      * apply Rle_trans with ((1 - u) ^ length ws * (a' + r))%R; [|exact Hlo].
        replace ((1 - u) * (1 - u) ^ length ws * (val acc + (val w + r)))%R
          with ((1 - u) ^ length ws * ((1 - u) * (A + r)))%R
          by (unfold A; ring).
        apply Rmult_le_compat_l; [exact Hlo1|]. nra.
      * apply Rle_trans with ((1 + u) ^ length ws * (a' + r))%R; [exact Hhi|].
        replace ((1 + u) * (1 + u) ^ length ws * (val acc + (val w + r)))%R
          with ((1 + u) ^ length ws * ((1 + u) * (A + r)))%R
          by (unfold A; ring).
        apply Rmult_le_compat_l; [exact Hhi1|]. nra.
Qed.


Lemma build_kernel_eq expf stk sigma i :
  0 <= i <= 6 ->
  build_kernel expf stk sigma i =
  F32.div (kernel_weight expf sigma i) (kernel_total expf sigma).
Proof.
  intros Hi.
  assert (L : i = 0 \/ i = 1 \/ i = 2 \/ i = 3 \/ i = 4 \/ i = 5 \/ i = 6)
    by lia.
  unfold build_kernel, kernel_total, kernel_weight, kernel_coeff.
  destruct L as [-> | [-> | [-> | [-> | [-> | [-> | ->]]]]]];
    cbv beta iota zeta delta
      [for_lt for_from store fst snd fold_left KERNEL_SIZE HALF_KERNEL
       Z.to_nat Pos.to_nat Pos.iter_op Nat.add Z.sub Z.add Z.opp Z.eqb
       Pos.eqb Z.pos_sub Pos.add Pos.succ Z.succ_double Z.pred_double
       Z.double Pos.pred_double Z.div Z.div_eucl Z.pos_div_eucl Z.leb Z.ltb
       Z.compare Pos.compare Pos.compare_cont Z.mul Pos.mul Z.of_nat
       Pos.of_succ_nat Z.modulo];
    reflexivity.
Qed.

Lemma kernel_weight_sym expf sigma i :
  0 <= i <= 6 -> kernel_weight expf sigma i = kernel_weight expf sigma (6 - i).
Proof.
  intros Hi.
  assert (L : i = 0 \/ i = 1 \/ i = 2 \/ i = 3 \/ i = 4 \/ i = 5 \/ i = 6)
    by lia.
  unfold kernel_weight. change HALF_KERNEL with 3.
  destruct L as [-> | [-> | [-> | [-> | [-> | [-> | ->]]]]]];
    repeat match goal with
      | |- context [F32.mul (F32.neg (F32.of_Z ?a)) (F32.of_Z ?a)] =>
          let v := eval vm_compute in
            (F32.mul (F32.neg (F32.of_Z a)) (F32.of_Z a)) in
          change (F32.mul (F32.neg (F32.of_Z a)) (F32.of_Z a)) with v
      end;
    reflexivity.
Qed.

Lemma kernel_total_fold expf sigma :
  kernel_total expf sigma =
  fold_left F32.add (map (kernel_weight expf sigma) [0; 1; 2; 3; 4; 5; 6])
    (S754_zero false).
Proof.
  unfold kernel_total. cbn [fold_left map].
  change (F32.of_Z 0) with (S754_zero false). reflexivity.
Qed.

Lemma bernoulli_24 :
  (1 - 7 * / 16777216 <= (1 - / 16777216) ^ 7)%R /\
  ((1 + / 16777216) ^ 7 <= 1 + 8 * / 16777216)%R.
Proof. cbn [pow]. split; lra. Qed.

(** C8, as the code has it.  For every [sigma] the kernel has seven
    coefficients: [kernel[i]] is the weight
    [coeff * expf(-(3-i)^2 / (2 sigma^2))], with
    [coeff = 1 / sqrtf(2 pi sigma^2)], divided by the float total of the
    seven weights, and [kernel[i]] is the same float as [kernel[6-i]].
    When, in addition, the seven weights are finite non-negative floats
    and their total is finite and positive, the coefficients are finite,
    non-negative and their exact sum is within 1e-5 of 1. *)
Theorem kernel_normalised (expf : F32.t -> F32.t) (stk : stack)
  (sigma : F32.t) :
  let kernel := build_kernel expf stk sigma in
  (forall i, 0 <= i <= 6 ->
     kernel i =
     F32.div (kernel_weight expf sigma i) (kernel_total expf sigma)) /\
  (forall i, 0 <= i <= 6 -> kernel i = kernel (6 - i)) /\
  ((forall i, 0 <= i <= 6 -> nonneg_finite (kernel_weight expf sigma i)) ->
   positive_finite (kernel_total expf sigma) ->
   (forall i, 0 <= i <= 6 ->
      match kernel i with
      | S754_zero _ | S754_finite false _ _ => True
      | _ => False
      end) /\
   (Rabs (sum7 kernel - 1) <= / 100000)%R).
Proof.
  intros kernel.
  assert (Heq : forall i, 0 <= i <= 6 ->
            kernel i =
            F32.div (kernel_weight expf sigma i) (kernel_total expf sigma))
    by (intros i Hi; apply build_kernel_eq; exact Hi).
  split; [exact Heq|]. split.
  { intros i Hi. rewrite (Heq i Hi), (Heq (6 - i)) by lia.
    rewrite <- (kernel_weight_sym expf sigma i Hi). reflexivity. }
  intros Hw HS.
  (* the total *)
  set (ws := map (kernel_weight expf sigma) [0; 1; 2; 3; 4; 5; 6]).
  assert (Hws : Forall nonneg_finite ws).
  { unfold ws. cbn [map].
    repeat (apply Forall_cons; [apply Hw; lia|]). apply Forall_nil. }
  pose proof (fold_add_ok ws Hws (S754_zero false) I) as HT.
  assert (Etot : kernel_total expf sigma =
                 fold_left F32.add ws (S754_zero false))
    by apply kernel_total_fold.
  rewrite <- Etot in HT. clear Etot.
  destruct (kernel_total expf sigma) as [s|s| |[|] mS eS] eqn:ES;
    cbn [positive_finite] in HS; try contradiction.
  destruct HT as [HT|[_ [Tlo Thi]]]; [discriminate HT|].
  change (length ws) with 7%nat in Tlo, Thi.
  rewrite p2_m24 in Tlo, Thi.
  destruct bernoulli_24 as [B1 B2].
  set (Sv := val (S754_finite false mS eS)) in *.
  assert (HSv : (0 < Sv)%R).
  { unfold Sv. cbn [val]. pose proof (p2_pos eS).
    assert (0 < IZR (Zpos mS))%R by (apply IZR_lt; lia). nra. }
  pose proof (rsum_nonneg ws Hws) as HT0.
  cbn [val] in Tlo, Thi. rewrite Rplus_0_l in Tlo, Thi.
  set (T := rsum ws) in *.
  set (rho := (T / Sv)%R).
  assert (HiS : (0 < / Sv)%R) by (apply Rinv_0_lt_compat; exact HSv).
  assert (Hrho0 : (0 <= rho)%R) by (unfold rho, Rdiv; nra).
  assert (Hrho1 : ((1 - 7 * / 16777216) * rho <= 1)%R).
  { assert (H1 : ((1 - 7 * / 16777216) * T <= Sv)%R) by nra.
    assert (H2 : ((1 - 7 * / 16777216) * T * / Sv <= Sv * / Sv)%R)
      by (apply Rmult_le_compat_r; lra).
    rewrite Rinv_r in H2 by lra. unfold rho, Rdiv. lra. }
  assert (Hrho2 : (1 <= (1 + 8 * / 16777216) * rho)%R).
  { assert (H1 : (Sv <= (1 + 8 * / 16777216) * T)%R) by nra.
    assert (H2 : (Sv * / Sv <= (1 + 8 * / 16777216) * T * / Sv)%R)
      by (apply Rmult_le_compat_r; lra).
    rewrite Rinv_r in H2 by lra. unfold rho, Rdiv. lra. }
  (* the seven quotients *)
  assert (Hx : forall i, 0 <= i <= 6 ->
            (0 <= val (kernel_weight expf sigma i) / Sv)%R).
  { intros i Hi. pose proof (val_nonneg _ (Hw i Hi)). unfold Rdiv. nra. }
  assert (Hsum : (val (kernel_weight expf sigma 0) / Sv
                  + val (kernel_weight expf sigma 1) / Sv
                  + val (kernel_weight expf sigma 2) / Sv
                  + val (kernel_weight expf sigma 3) / Sv
                  + val (kernel_weight expf sigma 4) / Sv
                  + val (kernel_weight expf sigma 5) / Sv
                  + val (kernel_weight expf sigma 6) / Sv = rho)%R).
  { unfold rho, T, ws, rsum. cbn [map fold_right]. field. lra. }
  pose proof (Hx 0 ltac:(lia)) as X0. pose proof (Hx 1 ltac:(lia)) as X1.
  pose proof (Hx 2 ltac:(lia)) as X2. pose proof (Hx 3 ltac:(lia)) as X3.
  pose proof (Hx 4 ltac:(lia)) as X4. pose proof (Hx 5 ltac:(lia)) as X5.
  pose proof (Hx 6 ltac:(lia)) as X6.
  assert (H104 : (2 <= p2 104)%R).
  { rewrite <- p2_1. apply p2_le. lia. }
  assert (Hn : (p2 (-150) <= / 16777216)%R).
  { rewrite <- p2_m24. apply p2_le. lia. }
  pose proof (p2_pos (-150)) as Hn0.
  assert (Hdiv : forall i, 0 <= i <= 6 ->
            (val (kernel_weight expf sigma i) / Sv <= rho)%R ->
            (match kernel i with
             | S754_zero _ | S754_finite false _ _ => True
             | _ => False
             end) /\
            (Rabs (val (kernel i) - val (kernel_weight expf sigma i) / Sv) <=
             / 16777216 * (val (kernel_weight expf sigma i) / Sv)
             + p2 (-150))%R).
  { intros i Hi Hle. rewrite (Heq i Hi).
    destruct (div_ok (kernel_weight expf sigma i) mS eS (Hw i Hi))
      as [[_ Hbig]|[Hfin Herr]].
    - fold Sv in Hbig. exfalso. lra.
    - fold Sv in Herr. rewrite p2_m24 in Herr. split; assumption. }
  destruct (Hdiv 0 ltac:(lia) ltac:(lra)) as [F0 E0].
  destruct (Hdiv 1 ltac:(lia) ltac:(lra)) as [F1 E1].
  destruct (Hdiv 2 ltac:(lia) ltac:(lra)) as [F2 E2].
  destruct (Hdiv 3 ltac:(lia) ltac:(lra)) as [F3 E3].
  destruct (Hdiv 4 ltac:(lia) ltac:(lra)) as [F4 E4].
  destruct (Hdiv 5 ltac:(lia) ltac:(lra)) as [F5 E5].
  destruct (Hdiv 6 ltac:(lia) ltac:(lra)) as [F6 E6].
  split.
  { intros i Hi.
    assert (L : i = 0 \/ i = 1 \/ i = 2 \/ i = 3 \/ i = 4 \/ i = 5 \/ i = 6)
      by lia.
    destruct L as [-> | [-> | [-> | [-> | [-> | [-> | ->]]]]]]; assumption. }
  apply Rabs_bounds in E0, E1, E2, E3, E4, E5, E6.
  unfold sum7. apply Rabs_le. lra.
Qed.


Lemma mul_zero_l (y : spec_float) :
  zero_or_nan (F32.mul (S754_zero false) y).
Proof. destruct y; exact I. Qed.

Lemma add_zero_or_nan (x y : spec_float) :
  zero_or_nan x -> zero_or_nan y -> zero_or_nan (F32.add x y).
Proof.
  destruct x as [[|]| | |]; destruct y as [[|]| | |]; cbn; tauto.
Qed.

Lemma div_zero_or_nan (x y : spec_float) :
  zero_or_nan x -> zero_or_nan y -> F32.div x y = S754_nan.
Proof.
  destruct x as [[|]| | |]; destruct y as [[|]| | |]; cbn; tauto.
Qed.

Lemma kernel_coeff_big : kernel_coeff sigma_big = S754_zero false.
Proof. vm_compute. reflexivity. Qed.

Lemma kernel_weight_big expf i :
  zero_or_nan (kernel_weight expf sigma_big i).
Proof.
  unfold kernel_weight. rewrite kernel_coeff_big. apply mul_zero_l.
Qed.

Lemma build_kernel_big expf stk i :
  0 <= i <= 6 -> build_kernel expf stk sigma_big i = S754_nan.
Proof.
  intros Hi. rewrite build_kernel_eq by exact Hi.
  apply div_zero_or_nan; [apply kernel_weight_big|].
  unfold kernel_total. cbn [fold_left].
  repeat (apply add_zero_or_nan; [|apply kernel_weight_big]).
  exact I.
Qed.

(** C8 as the specification words it fails for the positive [float]
    2^100: [2 * M_PI * sigma * sigma] overflows binary32, [coeff] is 0,
    the total is 0 or NaN, and every coefficient is NaN whatever [expf]
    returns.  No part of the claim about the coefficients survives: they
    are not numbers, their sum is not near 1, and [kernel[0] == kernel[6]]
    is false. *)
Lemma kernel_claim_fails_for_large_sigma :
  SFltb (S754_zero false) sigma_big = true /\
  (forall expf stk i, 0 <= i <= 6 ->
     build_kernel expf stk sigma_big i = S754_nan) /\
  ~ (exists expf stk, kernel_claim (build_kernel expf stk sigma_big)) /\
  ~ (exists expf stk,
       (Rabs (sum7 (build_kernel expf stk sigma_big) - 1) <= / 100000)%R) /\
  ~ (exists expf stk,
       SFeqb (build_kernel expf stk sigma_big 0)
         (build_kernel expf stk sigma_big 6) = true).
Proof.
  split; [reflexivity|].
  split; [intros expf stk i Hi; apply build_kernel_big; exact Hi|].
  split; [|split].
  - intros (expf & stk & Hfin & _ & _).
    specialize (Hfin 0 ltac:(lia)).
    rewrite build_kernel_big in Hfin by lia. discriminate Hfin.
  - intros (expf & stk & H). unfold sum7 in H.
    rewrite !build_kernel_big in H by lia.
    cbn [val] in H. apply Rabs_bounds in H. lra.
  - intros (expf & stk & H).
    rewrite !build_kernel_big in H by lia. discriminate H.
Qed.

Lemma kernel_weight_2 i :
  0 <= i <= 6 -> nonneg_finite (kernel_weight expf_quadratic (F32.of_Z 2) i).
Proof.
  intros Hi.
  assert (L : i = 0 \/ i = 1 \/ i = 2 \/ i = 3 \/ i = 4 \/ i = 5 \/ i = 6)
    by lia.
  destruct L as [-> | [-> | [-> | [-> | [-> | [-> | ->]]]]]];
    match goal with
    | |- nonneg_finite ?w =>
        let v := eval vm_compute in w in
        change (nonneg_finite v)
    end; cbn [nonneg_finite]; lia.
Qed.

Lemma kernel_total_2 :
  positive_finite (kernel_total expf_quadratic (F32.of_Z 2)).
Proof.
  match goal with
  | |- positive_finite ?w =>
      let v := eval vm_compute in w in
      change (positive_finite v)
  end. exact I.
Qed.

Lemma kernel_normalised_witness :
  ((forall i, 0 <= i <= 6 ->
      nonneg_finite (kernel_weight expf_quadratic (F32.of_Z 2) i)) /\
   positive_finite (kernel_total expf_quadratic (F32.of_Z 2))) /\
  (Rabs (sum7 (build_kernel expf_quadratic stack_zero (F32.of_Z 2)) - 1) <=
   / 100000)%R.
Proof.
  split; [split; [exact kernel_weight_2|exact kernel_total_2]|].
  apply (proj2 (proj2 (kernel_normalised expf_quadratic stack_zero
                         (F32.of_Z 2)))
           kernel_weight_2 kernel_total_2).
Defined.

(** * Further properties *)

(** ** Where the gathering reads *)

(** The offsets read in the three branches, relative to the current
    pixel. *)
Lemma reads_left (p width c : Z) :
  0 <= c < 3 ->
  reads p width c =
  map (Z.add p)
    (nth (Z.to_nat c)
       [[3; 2; 1; 0; 1; 2; 3]; [3; 2; -1; 0; 1; 2; 3];
        [3; -2; -1; 0; 1; 2; 3]] []).
Proof.
  intros Hc. assert (K : c = 0 \/ c = 1 \/ c = 2) by lia.
  destruct K as [-> | [-> | ->]]; reflexivity.
Qed.

Lemma reads_right (p width c : Z) :
  3 <= c -> width - 3 < c < width ->
  reads p width c =
  map (Z.add p)
    (if width - c =? 1 then [0; 0; -1; -2; -3; -4; -5]
     else [0; 1; 0; -1; -2; -3; -4]).
Proof.
  intros Hl Hc. unfold reads. change HALF_KERNEL with 3.
  replace (c <? 3) with false by (symmetry; apply Z.ltb_ge; lia).
  replace (width - 3 <? c) with true by (symmetry; apply Z.ltb_lt; lia).
  assert (K : width - c = 1 \/ width - c = 2) by lia.
  destruct K as [K | K]; rewrite K; reflexivity.
Qed.

Lemma reads_mid (p width c : Z) :
  3 <= c <= width - 3 ->
  reads p width c =
  [p - 3; p - 2; p - 1; p; p + 1; p + 2; p + 3; p + 4].
Proof.
  intros Hc. unfold reads. change HALF_KERNEL with 3.
  replace (c <? 3) with false by (symmetry; apply Z.ltb_ge; lia).
  replace (width - 3 <? c) with false by (symmetry; apply Z.ltb_ge; lia).
  cbn [flat_map map app]. list_eq; lia.
Qed.

(** Decomposes membership in an explicit list. *)
Ltac in_cases H :=
  cbn [In nth Z.to_nat Pos.to_nat Pos.iter_op Nat.add firstn map] in H;
  repeat (destruct H as [H|H]; [try lia|]); try contradiction.

(** The seven offsets that are summed, relative to the row start. *)
Lemma reads7_bounds (width r c a : Z) :
  7 <= width -> 0 <= c < width ->
  In a (firstn 7 (reads (r * width + c) width c)) ->
  r * width <= a <= r * width + c + 3 /\
  (r * width + width <= a -> c = width - 3 /\ a = r * width + width).
Proof.
  intros Hw Hc.
  destruct (Z_lt_ge_dec c 3) as [Hl|Hl].
  - rewrite reads_left by lia.
    assert (K : c = 0 \/ c = 1 \/ c = 2) by lia.
    destruct K as [-> | [-> | ->]]; intros H; in_cases H.
  - destruct (Z_lt_ge_dec (width - 3) c) as [Hr|Hr].
    + rewrite reads_right by lia.
      assert (K : width - c = 1 \/ width - c = 2) by lia.
      destruct K as [K | K]; rewrite K; intros H; in_cases H.
    + rewrite reads_mid by lia. intros H. in_cases H.
Qed.

(** All the offsets that are loaded, the eighth lane included. *)
Lemma reads_bounds (width r c a : Z) :
  7 <= width -> 0 <= c < width ->
  In a (reads (r * width + c) width c) ->
  r * width <= a <= r * width + width + 1 /\
  (r * width + width <= a -> c = width - 4 \/ c = width - 3).
Proof.
  intros Hw Hc.
  destruct (Z_lt_ge_dec c 3) as [Hl|Hl].
  - rewrite reads_left by lia.
    assert (K : c = 0 \/ c = 1 \/ c = 2) by lia.
    destruct K as [-> | [-> | ->]]; intros H; in_cases H.
  - destruct (Z_lt_ge_dec (width - 3) c) as [Hr|Hr].
    + rewrite reads_right by lia.
      assert (K : width - c = 1 \/ width - c = 2) by lia.
      destruct K as [K | K]; rewrite K; intros H; in_cases H.
    + rewrite reads_mid by lia. intros H. in_cases H.
Qed.

Lemma reads_interior (width p c : Z) :
  3 <= c <= width - 3 ->
  firstn 7 (reads p width c) =
  [p - 3; p - 2; p - 1; p; p + 1; p + 2; p + 3].
Proof. intros Hc. rewrite reads_mid by exact Hc. reflexivity. Qed.

(** X1.  In an image at least 7 pixels wide, every word that the
    gathering of either pass loads for row [r], column [c] lies between
    the start of row [r] and one word past the start of row [r + 1]; it
    lies outside row [r] only at the columns [width - 4] and [width - 3].
    Of the seven words that are summed, only the last one of column
    [width - 3] lies outside the row.  Hence all loads of a pass stay
    within [0 .. width * height + 1], and the ones at or above
    [width * height] happen in the last row at those two columns. *)
Theorem reads_within_two_words (width height r c a : Z) :
  7 <= width -> 0 <= r < height -> 0 <= c < width ->
  In a (reads (r * width + c) width c) ->
  (r * width <= a <= r * width + width + 1 /\
   0 <= a <= width * height + 1) /\
  (r * width + width <= a -> c = width - 4 \/ c = width - 3) /\
  (width * height <= a ->
   r = height - 1 /\ (c = width - 4 \/ c = width - 3)) /\
  (In a (firstn 7 (reads (r * width + c) width c)) ->
   a <= r * width + width /\
   (r * width + width <= a -> c = width - 3)).
Proof.
  intros Hw Hr Hc Ha.
  destruct (reads_bounds width r c a Hw Hc Ha) as [B1 B2].
  assert (Hrow : r * width + width <= width * height) by nia.
  assert (0 <= r * width) by nia.
  split; [split; [exact B1|lia]|].
  split; [exact B2|]. split.
  - intros Hout. split; [|apply B2; lia].
    destruct (Z.eq_dec r (height - 1)) as [E|E]; [exact E|].
    assert (r * width + width + width <= width * height) by nia. lia.
  - intros H7.
    destruct (reads7_bounds width r c a Hw Hc H7) as [C1 C2].
    split; [|intros Hge; apply C2; exact Hge].
    destruct (Z_le_gt_dec (r * width + width) a) as [G|G]; [|lia].
    destruct (C2 G) as [_ ->]. lia.
Qed.

Lemma reads_within_two_words_witness :
  (7 <= 10 /\ 0 <= 9 < 10 /\ 0 <= 7 < 10 /\
   In 101 (reads (9 * 10 + 7) 10 7)) /\
  (10 * 10 <= 101 -> 9 = 10 - 1 /\ (7 = 10 - 4 \/ 7 = 10 - 3)).
Proof.
  assert (H : In 101 (reads (9 * 10 + 7) 10 7)).
  { rewrite reads_mid by lia. do 7 right. left. reflexivity. }
  split; [repeat split; try lia; exact H|].
  apply (reads_within_two_words 10 10 9 7 101); try lia. exact H.
Defined.

(** ** One channel of the narrow pass *)

Lemma reads7_length (p width c : Z) :
  0 <= c < width -> length (firstn 7 (reads p width c)) = 7%nat.
Proof.
  intros Hc.
  pose proof (window_reads stack_zero (fun _ => 0) p width c Hc) as E.
  apply (f_equal (@length Z)) in E.
  rewrite length_firstn, window_length, length_map in E by exact Hc.
  symmetry. exact E.
Qed.

Lemma sat8_scale7 (k : Z) (w : list Z) :
  length w = 7%nat -> sat8 (scale7 (channel_sum k w)) = round7 (channel_sum k w).
Proof.
  intros Hlen. destruct (scale7_channel_sum k w Hlen) as [E B].
  unfold round7. rewrite <- E. unfold sat8, clamp. lia.
Qed.

(** Channel [k] of the pixel stored for row [r], column [c]: the integer
    nearest to a seventh of the channel sum over the seven words read. *)
Lemma sse2_pass_channel (stk : stack) (src dst : buffer)
  (kernel : array F32.t) (width height r c k : Z) :
  width * height <= 2 ^ 31 - 1 ->
  0 <= r < height -> 0 <= c < width -> 0 <= k < 4 ->
  channel k
    (blur_impl_horizontal_pass_sse2 stk src dst kernel width height
       (height * c + r)) =
  round7 (channel_sum k (map src (firstn 7 (reads (r * width + c) width c)))).
Proof.
  intros Hfit Hr Hc Hk. rewrite sse2_pass_at by assumption.
  rewrite window_reads by exact Hc.
  set (ws := map src (firstn 7 (reads (r * width + c) width c))).
  assert (Hlen : length ws = 7%nat)
    by (unfold ws; rewrite length_map; apply reads7_length; exact Hc).
  cbn [map]. rewrite le_combine_channel by (try apply sat8_range; exact Hk).
  assert (K : k = 0 \/ k = 1 \/ k = 2 \/ k = 3) by lia.
  destruct K as [-> | [-> | [-> | ->]]]; cbn [Z.to_nat Pos.to_nat Pos.iter_op Nat.add nth];
    apply sat8_scale7; exact Hlen.
Qed.

Lemma channel_sum_between (k lo hi : Z) (ws : list Z) :
  Forall (fun x => lo <= channel k x <= hi) ws ->
  lo * Z.of_nat (length ws) <= channel_sum k ws <= hi * Z.of_nat (length ws).
Proof.
  unfold channel_sum. induction 1 as [|x ws Hx _ IH].
  - cbn. lia.
  - cbn [map fold_right length]. rewrite Nat2Z.inj_succ. lia.
Qed.

Lemma channel_sum_mono (k : Z) (f g : Z -> Z) (l : list Z) :
  (forall a, In a l -> channel k (f a) <= channel k (g a)) ->
  channel_sum k (map f l) <= channel_sum k (map g l).
Proof.
  unfold channel_sum. induction l as [|a l IH]; intros H.
  - cbn. lia.
  - cbn [map fold_right].
    assert (channel k (f a) <= channel k (g a)) by (apply H; left; reflexivity).
    assert (fold_right Z.add 0 (map (channel k) (map f l)) <=
            fold_right Z.add 0 (map (channel k) (map g l)))
      by (apply IH; intros b Hb; apply H; right; exact Hb).
    lia.
Qed.

Lemma round7_between (s lo hi : Z) :
  7 * lo <= s <= 7 * hi -> lo <= round7 s <= hi.
Proof.
  intros H. unfold round7. split.
  - apply Z.div_le_lower_bound; lia.
  - assert ((2 * s + 7) / 14 < hi + 1); [|lia].
    apply Z.div_lt_upper_bound; lia.
Qed.

Lemma channel_sum_reads_between (k lo hi : Z) (src : buffer)
  (p width c : Z) :
  0 <= c < width ->
  (forall a, In a (firstn 7 (reads p width c)) ->
     lo <= channel k (src a) <= hi) ->
  7 * lo <= channel_sum k (map src (firstn 7 (reads p width c))) <= 7 * hi.
Proof.
  intros Hc H.
  set (l := firstn 7 (reads p width c)) in *.
  assert (B : lo * Z.of_nat (length (map src l)) <= channel_sum k (map src l)
              <= hi * Z.of_nat (length (map src l))).
  { apply channel_sum_between. apply Forall_forall. intros x Hx.
    apply in_map_iff in Hx. destruct Hx as (a & <- & Ha). apply H. exact Ha. }
  rewrite length_map in B.
  replace (length l) with 7%nat in B
    by (symmetry; apply reads7_length; exact Hc).
  change (Z.of_nat 7) with 7 in B. lia.
Qed.

Lemma sse2_pass_range (stk : stack) (src dst : buffer)
  (kernel : array F32.t) (width height r c k lo hi : Z) :
  width * height <= 2 ^ 31 - 1 ->
  0 <= r < height -> 0 <= c < width -> 0 <= k < 4 ->
  (forall a, In a (firstn 7 (reads (r * width + c) width c)) ->
     lo <= channel k (src a) <= hi) ->
  lo <= channel k
          (blur_impl_horizontal_pass_sse2 stk src dst kernel width height
             (height * c + r)) <= hi.
Proof.
  intros Hfit Hr Hc Hk H. rewrite sse2_pass_channel by assumption.
  apply round7_between, channel_sum_reads_between; assumption.
Qed.

(** X2.  No overshoot: if channel [k] of the seven words that the narrow
    pass sums for a position lies between [lo] and [hi], so does channel
    [k] of the pixel it stores.  In particular a channel that is constant
    over the window, such as the alpha of an opaque image, is kept.
    ([width * height] is at most 2^31 - 1, so that the store index does
    not overflow.) *)
Theorem sse2_pass_channel_range (stk : stack) (src dst : buffer)
  (kernel : array F32.t) (width height r c k lo hi : Z) :
  width * height <= 2 ^ 31 - 1 ->
  0 <= r < height -> 0 <= c < width -> 0 <= k < 4 ->
  (forall a, In a (firstn 7 (reads (r * width + c) width c)) ->
     lo <= channel k (src a) <= hi) ->
  lo <= channel k
          (blur_impl_horizontal_pass_sse2 stk src dst kernel width height
             (height * c + r)) <= hi.
Proof.
  intros Hfit Hr Hc Hk H.
  pose proof (sse2_pass_channel stk src dst kernel width height r c k
                Hfit Hr Hc Hk) as E.
  pose proof (channel_sum_reads_between k lo hi src (r * width + c) width c
                Hc H) as B.
  rewrite E. apply round7_between. exact B.
Qed.

Lemma sse2_pass_channel_range_witness :
  (7 * 7 <= 2 ^ 31 - 1 /\ 0 <= 3 < 7 /\ 0 <= 5 < 7 /\ 0 <= 3 < 4 /\
   (forall a, In a (firstn 7 (reads (3 * 7 + 5) 7 5)) ->
      255 <= channel 3 (red_7x7 a) <= 255)) /\
  255 <= channel 3
           (blur_impl_horizontal_pass_sse2 stack_zero red_7x7 black kernel_16
              7 7 (7 * 5 + 3)) <= 255.
Proof.
  assert (H : forall a, In a (firstn 7 (reads (3 * 7 + 5) 7 5)) ->
                255 <= channel 3 (red_7x7 a) <= 255).
  { intros a Ha. rewrite reads_right in Ha by lia.
    in_cases Ha; subst a; vm_compute; split; discriminate. }
  split; [repeat split; try lia; apply H; assumption|].
  apply (sse2_pass_channel_range stack_zero red_7x7 black kernel_16
           7 7 3 5 3 255 255); try lia. exact H.
Defined.

(** X3.  The narrow pass is monotone in each channel: raising channel
    [k] of the words that are summed for a position cannot lower channel
    [k] of the pixel stored for it.  ([width * height] is at most
    2^31 - 1, so that the store index does not overflow.) *)
Theorem sse2_pass_monotone (stk stk' : stack) (src src' dst dst' : buffer)
  (kernel kernel' : array F32.t) (width height r c k : Z) :
  width * height <= 2 ^ 31 - 1 ->
  0 <= r < height -> 0 <= c < width -> 0 <= k < 4 ->
  (forall a, In a (firstn 7 (reads (r * width + c) width c)) ->
     channel k (src a) <= channel k (src' a)) ->
  channel k
    (blur_impl_horizontal_pass_sse2 stk src dst kernel width height
       (height * c + r)) <=
  channel k
    (blur_impl_horizontal_pass_sse2 stk' src' dst' kernel' width height
       (height * c + r)).
Proof.
  intros Hfit Hr Hc Hk H. rewrite !sse2_pass_channel by assumption.
  unfold round7. apply Z.div_le_mono; [lia|].
  pose proof (channel_sum_mono k src src' _ H). lia.
Qed.

Lemma sse2_pass_monotone_witness :
  (7 * 7 <= 2 ^ 31 - 1 /\ 0 <= 6 < 7 /\ 0 <= 4 < 7 /\ 0 <= 0 < 4 /\
   (forall a, In a (firstn 7 (reads (6 * 7 + 4) 7 4)) ->
      channel 0 (black a) <= channel 0 (red_7x7 a))) /\
  channel 0
    (blur_impl_horizontal_pass_sse2 stack_zero black black kernel_16 7 7
       (7 * 4 + 6)) <=
  channel 0
    (blur_impl_horizontal_pass_sse2 stack_ones red_7x7 black kernel_16 7 7
       (7 * 4 + 6)).
Proof.
  assert (H : forall a, In a (firstn 7 (reads (6 * 7 + 4) 7 4)) ->
                channel 0 (black a) <= channel 0 (red_7x7 a)).
  { intros a Ha. pose proof (channel_range 0 (red_7x7 a)).
    change (channel 0 (black a)) with 0. lia. }
  split; [repeat split; try lia; apply H; assumption|].
  apply (sse2_pass_monotone stack_zero stack_ones black red_7x7 black black
           kernel_16 kernel_16 7 7 6 4 0); try lia. exact H.
Defined.

(** ** What the narrow blur depends on *)

Lemma sse2_pass_ext (stk stk' : stack) (src src' dst dst' : buffer)
  (kernel kernel' : array F32.t) (width height r c : Z) :
  width * height <= 2 ^ 31 - 1 ->
  0 <= r < height -> 0 <= c < width ->
  (forall a, In a (firstn 7 (reads (r * width + c) width c)) ->
     src a = src' a) ->
  blur_impl_horizontal_pass_sse2 stk src dst kernel width height
    (height * c + r) =
  blur_impl_horizontal_pass_sse2 stk' src' dst' kernel' width height
    (height * c + r).
Proof.
  intros Hfit Hr Hc H. rewrite !sse2_pass_at by assumption.
  rewrite !window_reads by exact Hc.
  rewrite (map_ext_in src src' _ H). reflexivity.
Qed.

(** An offset below [width * height] is [height * c + r] for one column
    and one row. *)
Lemma transposed_offset (width height o : Z) :
  0 < height -> 0 <= o < width * height ->
  o = height * (o / height) + o mod height /\
  0 <= o mod height < height /\ 0 <= o / height < width.
Proof.
  intros Hh Ho.
  pose proof (Z.div_mod o height ltac:(lia)) as E.
  pose proof (Z.mod_pos_bound o height Hh) as B.
  split; [exact E|]. split; [exact B|]. split.
  - apply Z.div_pos; lia.
  - apply Z.div_lt_upper_bound; lia.
Qed.

Lemma sse2_pass_local (stk stk' : stack) (src src' dst dst' : buffer)
  (kernel kernel' : array F32.t) (width height o : Z) :
  7 <= width -> 1 <= height -> width * height <= 2 ^ 31 - 1 ->
  (forall a, 0 <= a <= width * height -> src a = src' a) ->
  0 <= o < width * height ->
  blur_impl_horizontal_pass_sse2 stk src dst kernel width height o =
  blur_impl_horizontal_pass_sse2 stk' src' dst' kernel' width height o.
Proof.
  intros Hw Hh Hfit H Ho.
  destruct (transposed_offset width height o ltac:(lia) Ho) as (E & Hr & Hc).
  rewrite E. apply sse2_pass_ext; [exact Hfit|exact Hr|exact Hc|].
  intros a Ha. apply H.
  destruct (reads7_bounds width _ _ a Hw Hc Ha) as [B1 B2].
  set (r := o mod height) in *. set (c := o / height) in *.
  assert (0 <= r * width) by nia.
  assert (r * width + width <= width * height) by nia.
  split; [lia|].
  destruct (Z_le_gt_dec (r * width + width) a) as [G|G]; [|lia].
  destruct (B2 G) as [_ ->]. lia.
Qed.

(** X4.  With both dimensions at least 7 and [width * height] at most
    2^31 - 1 (no overflow of the store index), the [width * height] pixels
    that [blur_impl_sse2] leaves in each buffer are determined by the
    source pixels together with the one word that follows each buffer:
    they depend neither on the other memory around the buffers, nor on
    the previous content of [dst], nor on the unwritten words of the
    stack frame, nor on [sigma]. *)
Theorem blur_impl_sse2_local (expf expf' : F32.t -> F32.t)
  (stk stk' : stack) (src src' dst dst' : buffer) (width height : Z)
  (sigma sigma' : F32.t) (o : Z) :
  7 <= width -> 7 <= height -> width * height <= 2 ^ 31 - 1 ->
  (forall a, 0 <= a <= width * height -> src a = src' a) ->
  dst (width * height) = dst' (width * height) ->
  0 <= o < width * height ->
  fst (blur_impl_sse2 expf stk src dst width height sigma) o =
  fst (blur_impl_sse2 expf' stk' src' dst' width height sigma') o /\
  snd (blur_impl_sse2 expf stk src dst width height sigma) o =
  snd (blur_impl_sse2 expf' stk' src' dst' width height sigma') o.
Proof.
  intros Hw Hh Hfit Hsrc Hdst Ho.
  unfold blur_impl_sse2. cbv zeta. cbn [fst snd].
  set (k := build_kernel expf stk sigma).
  set (k' := build_kernel expf' stk' sigma').
  set (dst1 := blur_impl_horizontal_pass_sse2 stk src dst k width height).
  set (dst1' := blur_impl_horizontal_pass_sse2 stk' src' dst' k' width height).
  assert (H1 : forall a, 0 <= a < width * height -> dst1 a = dst1' a)
    by (intros a Ha; apply sse2_pass_local; try assumption; lia).
  split; [|apply H1; exact Ho].
  replace (width * height) with (height * width) in Ho by lia.
  apply sse2_pass_local; try assumption; try lia.
  intros a Ha.
  destruct (Z.eq_dec a (width * height)) as [->|N].
  - destruct (pass_sse2_transposed stk src dst k width height) as [_ F];
      [lia|lia|lia|].
    destruct (pass_sse2_transposed stk' src' dst' k' width height) as [_ F'];
      [lia|lia|lia|].
    unfold dst1, dst1'. rewrite F, F' by lia. exact Hdst.
  - apply H1. lia.
Qed.

Lemma blur_impl_sse2_local_witness :
  (7 <= 7 /\ 7 <= 7 /\ 7 * 7 <= 2 ^ 31 - 1 /\
   (forall a, 0 <= a <= 7 * 7 -> red_7x7 a = red_7x7 a) /\
   black (7 * 7) = black_then_white (7 * 7) /\ 0 <= 25 < 7 * 7) /\
  fst (blur_impl_sse2 (fun x => x) stack_zero red_7x7 black 7 7 (F32.of_Z 2))
    25 =
  fst (blur_impl_sse2 expf_quadratic stack_ones red_7x7 black_then_white 7 7
         (F32.of_Z 3)) 25.
Proof.
  assert (H1 : 7 <= 7) by lia.
  assert (H2 : 7 * 7 <= 2 ^ 31 - 1) by lia.
  assert (H3 : forall a, 0 <= a <= 7 * 7 -> red_7x7 a = red_7x7 a)
    by (intros a _; reflexivity).
  assert (H4 : black (7 * 7) = black_then_white (7 * 7)) by reflexivity.
  assert (H5 : 0 <= 25 < 7 * 7) by lia.
  split; [repeat split; assumption || lia|].
  exact (proj1 (blur_impl_sse2_local (fun x => x) expf_quadratic stack_zero
                  stack_ones red_7x7 red_7x7 black black_then_white 7 7
                  (F32.of_Z 2) (F32.of_Z 3) 25 H1 H1 H2 H3 H4 H5)).
Defined.

(** ** Flat images, whatever surrounds the buffers *)

Lemma sse2_pass_flat_at (stk : stack) (src dst : buffer)
  (kernel : array F32.t) (width height r c p : Z) :
  width * height <= 2 ^ 31 - 1 ->
  0 <= r < height -> 0 <= c < width -> 0 <= p < 2 ^ 32 ->
  (forall a, In a (firstn 7 (reads (r * width + c) width c)) -> src a = p) ->
  blur_impl_horizontal_pass_sse2 stk src dst kernel width height
    (height * c + r) = p.
Proof.
  intros Hfit Hr Hc Hp H.
  destruct (pass_sse2_transposed stk src dst kernel width height) as [Hat _];
    [lia|lia|exact Hfit|].
  rewrite Hat by assumption.
  pose proof (gather_holds stk src (r * width + c) width c Hc) as Hh.
  pose proof (window_length stk src (r * width + c) width c Hc) as Hlen.
  pose proof (window_reads stk src (r * width + c) width c Hc) as Hw.
  rewrite (map_ext_in src (fun _ => p) _ H) in Hw.
  pose proof (reads7_length (r * width + c) width c Hc) as H7.
  destruct (firstn 7 (reads (r * width + c) width c)) as [|l0 l] eqn:El;
    [discriminate H7|].
  do 6 (destruct l as [|? l]; [discriminate H7|]).
  destruct l; [|discriminate H7].
  destruct (window stk src (r * width + c) width c) as [|w0 w];
    [discriminate Hlen|].
  do 7 (destruct w as [|? w]; [discriminate Hlen|]).
  destruct w; [|discriminate Hlen].
  cbn [firstn map] in Hw. injection Hw as -> -> -> -> -> -> ->.
  eapply sse2_pixel_flat; [exact Hp|exact Hh].
Qed.

(** After the first pass over a flat image every pixel but the one of
    the last row, column [width - 3], has the colour of the image. *)
Lemma sse2_pass_flat (stk : stack) (src dst : buffer)
  (kernel : array F32.t) (width height r c p : Z) :
  width * height <= 2 ^ 31 - 1 ->
  7 <= width -> 0 <= r < height -> 0 <= c < width -> 0 <= p < 2 ^ 32 ->
  (forall a, 0 <= a < width * height -> src a = p) ->
  ~ (r = height - 1 /\ c = width - 3) ->
  blur_impl_horizontal_pass_sse2 stk src dst kernel width height
    (height * c + r) = p.
Proof.
  intros Hfit Hw Hr Hc Hp Hsrc Hn.
  apply sse2_pass_flat_at; try assumption.
  intros a Ha. apply Hsrc.
  destruct (reads7_bounds width r c a Hw Hc Ha) as [B1 B2].
  assert (0 <= r * width) by nia.
  split; [lia|].
  destruct (Z_le_gt_dec (r * width + width) a) as [G|G].
  - destruct (B2 G) as [Ec Ea].
    assert (r <> height - 1) by (intros ->; apply Hn; split; [reflexivity|exact Ec]).
    assert (r * width + width + width <= width * height) by nia. lia.
  - assert (r * width + width <= width * height) by nia. lia.
Qed.

(** X5.  On a flat image with both dimensions at least 7 and
    [width * height] at most 2^31 - 1 (no overflow of the store index),
    [blur_impl_sse2] gives every pixel back unchanged, whatever
    surrounds the buffers, except possibly five: column [width - 3] in
    the last four rows and column [width - 1] in row [height - 3].  These
    are the pixels reached by the words read at offset [width * height]
    of [src] in the first pass and of [dst] in the second. *)
Theorem blur_impl_sse2_flat (expf : F32.t -> F32.t) (stk : stack)
  (src dst : buffer) (width height : Z) (sigma : F32.t) (p r c : Z) :
  7 <= width -> 7 <= height -> width * height <= 2 ^ 31 - 1 ->
  0 <= p < 2 ^ 32 ->
  (forall a, 0 <= a < width * height -> src a = p) ->
  0 <= r < height -> 0 <= c < width ->
  ~ (c = width - 3 /\ height - 4 <= r) ->
  ~ (c = width - 1 /\ r = height - 3) ->
  fst (blur_impl_sse2 expf stk src dst width height sigma) (width * r + c) = p.
Proof.
  intros Hw Hh Hfit Hp Hsrc Hr Hc N1 N2.
  unfold blur_impl_sse2. cbv zeta. cbn [fst].
  set (k := build_kernel expf stk sigma).
  set (dst1 := blur_impl_horizontal_pass_sse2 stk src dst k width height).
  apply sse2_pass_flat_at; try assumption; [lia|].
  intros a Ha.
  destruct (reads7_bounds height c r a Hh Hr Ha) as [B1 B2].
  assert (H0 : 0 <= c * height) by nia.
  assert (Hrow : c * height + height <= width * height) by nia.
  assert (Hin : 0 <= a < width * height).
  { split; [lia|].
    destruct (Z_le_gt_dec (c * height + height) a) as [G|G]; [|lia].
    destruct (B2 G) as [Er Ea].
    assert (c <> width - 1) by (intros ->; apply N2; split; [reflexivity|exact Er]).
    assert (c * height + height + height <= width * height) by nia. lia. }
  destruct (transposed_offset width height a ltac:(lia) Hin) as (E & Hr' & Hc').
  set (r' := a mod height) in *. set (c' := a / height) in *.
  rewrite E. unfold dst1. apply sse2_pass_flat; try assumption.
  intros [Er' Ec'].
  assert (Ea : a = height * (width - 3) + (height - 1)) by lia.
  destruct (Z_le_gt_dec (c * height + height) a) as [G|G].
  - destruct (B2 G) as [_ Ea'].
    assert (K : c + 1 - (width - 3) <= 0 \/ 1 <= c + 1 - (width - 3)) by lia.
    destruct K; nia.
  - assert (c = width - 3) by nia.
    apply N1. split; [assumption|]. subst c. lia.
Qed.

Lemma blur_impl_sse2_flat_witness :
  (7 <= 7 /\ 7 <= 7 /\ 7 * 7 <= 2 ^ 31 - 1 /\ 0 <= red < 2 ^ 32 /\
   (forall a, 0 <= a < 7 * 7 -> red_7x7 a = red) /\
   0 <= 6 < 7 /\ 0 <= 5 < 7 /\
   ~ (5 = 7 - 3 /\ 7 - 4 <= 6) /\ ~ (5 = 7 - 1 /\ 6 = 7 - 3)) /\
  fst (blur_impl_sse2 (fun x => x) stack_ones red_7x7 black_then_white 7 7
         (F32.of_Z 2)) (7 * 6 + 5) = red.
Proof.
  assert (H1 : 7 <= 7) by lia.
  assert (H0 : 7 * 7 <= 2 ^ 31 - 1) by lia.
  assert (H2 : 0 <= red < 2 ^ 32) by (unfold red; lia).
  assert (H3 : forall a, 0 <= a < 7 * 7 -> red_7x7 a = red).
  { intros a Ha. unfold red_7x7.
    replace ((0 <=? a) && (a <? 49)) with true; [reflexivity|].
    symmetry. apply andb_true_iff. split; [apply Z.leb_le|apply Z.ltb_lt]; lia. }
  assert (H4 : 0 <= 6 < 7) by lia.
  assert (H5 : 0 <= 5 < 7) by lia.
  assert (H6 : ~ (5 = 7 - 3 /\ 7 - 4 <= 6)) by lia.
  assert (H7 : ~ (5 = 7 - 1 /\ 6 = 7 - 3)) by lia.
  split; [repeat split; assumption || lia|].
  exact (blur_impl_sse2_flat (fun x => x) stack_ones red_7x7 black_then_white
           7 7 (F32.of_Z 2) red 6 5 H1 H1 H0 H2 H3 H4 H5 H6 H7).
Defined.

(** ** The two passes together, away from the borders *)

Lemma box_row_pass (stk : stack) (src dst : buffer) (kernel : array F32.t)
  (width height r c k : Z) :
  width * height <= 2 ^ 31 - 1 ->
  0 <= r < height -> 3 <= c <= width - 3 -> 0 <= k < 4 ->
  channel k
    (blur_impl_horizontal_pass_sse2 stk src dst kernel width height
       (height * c + r)) =
  box_row k src width r c.
Proof.
  intros Hfit Hr Hc Hk. rewrite sse2_pass_channel by (try assumption; lia).
  rewrite reads_interior by exact Hc.
  unfold box_row, offsets7. cbn [map].
  do 2 f_equal. list_eq; f_equal; lia.
Qed.

(** X6.  In an image whose [width * height] is at most 2^31 - 1 (no
    overflow of the store index), at least three pixels away from every
    edge, each channel of the pixel that [blur_impl_sse2] leaves in [src]
    is the 7-tap box
    filter (sum, divided by 7, rounded to nearest) along the column of
    the 7-tap box filter along the rows: a separable 7x7 box blur with
    one rounding after each pass. *)
Theorem blur_impl_sse2_interior (expf : F32.t -> F32.t) (stk : stack)
  (src dst : buffer) (width height : Z) (sigma : F32.t) (r c k : Z) :
  width * height <= 2 ^ 31 - 1 ->
  3 <= r <= height - 4 -> 3 <= c <= width - 4 -> 0 <= k < 4 ->
  channel k
    (fst (blur_impl_sse2 expf stk src dst width height sigma)
       (width * r + c)) =
  box_2d k src width r c.
Proof.
  intros Hfit Hr Hc Hk. unfold blur_impl_sse2. cbv zeta. cbn [fst].
  set (kn := build_kernel expf stk sigma).
  set (dst1 := blur_impl_horizontal_pass_sse2 stk src dst kn width height).
  rewrite sse2_pass_channel by lia.
  rewrite reads_interior by lia.
  unfold box_2d, offsets7, channel_sum. cbn [map fold_right].
  assert (E : forall j, -3 <= j <= 3 ->
            channel k (dst1 (c * height + r + j)) =
            box_row k src width (r + j) c).
  { intros j Hj.
    replace (c * height + r + j) with (height * c + (r + j)) by lia.
    unfold dst1. apply box_row_pass; lia. }
  replace (c * height + r - 3) with (c * height + r + -3) by lia.
  replace (c * height + r - 2) with (c * height + r + -2) by lia.
  replace (c * height + r - 1) with (c * height + r + -1) by lia.
  replace (dst1 (c * height + r)) with (dst1 (c * height + r + 0))
    by (f_equal; lia).
  rewrite !E by lia. reflexivity.
Qed.

Lemma blur_impl_sse2_interior_witness :
  (9 * 9 <= 2 ^ 31 - 1 /\ 3 <= 4 <= 9 - 4 /\ 3 <= 5 <= 9 - 4 /\
   0 <= 1 < 4) /\
  channel 1
    (fst (blur_impl_sse2 (fun x => x) stack_zero (fun a => 256 * a) black
            9 9 (F32.of_Z 2)) (9 * 4 + 5)) =
  box_2d 1 (fun a => 256 * a) 9 4 5.
Proof.
  assert (H0 : 9 * 9 <= 2 ^ 31 - 1) by lia.
  assert (H1 : 3 <= 4 <= 9 - 4) by lia.
  assert (H2 : 3 <= 5 <= 9 - 4) by lia.
  assert (H3 : 0 <= 1 < 4) by lia.
  split; [repeat split; lia|].
  exact (blur_impl_sse2_interior (fun x => x) stack_zero (fun a => 256 * a)
           black 9 9 (F32.of_Z 2) 4 5 1 H0 H1 H2 H3).
Defined.

(** ** Empty images *)

Lemma pass_loop_empty (pixel : array __m128i -> Z) (stk : stack)
  (src dst : buffer) (width height : Z) :
  width <= 0 \/ height <= 0 ->
  pass_loop pixel stk src dst width height = dst.
Proof.
  intros H. unfold pass_loop.
  destruct (Z_le_gt_dec height 0) as [Hh|Hh].
  - rewrite for_lt_done by lia. reflexivity.
  - assert (Hw : width <= 0) by lia.
    match goal with
    | |- snd (snd (for_lt 0 height ?b ?s)) = _ => set (body := b)
    end.
    destruct (for_lt_inv (fun _ st => st = (0, dst)) body 0 height (0, dst))
      as [_ E]; [lia|reflexivity| |].
    + intros j st _ ->. unfold body. rewrite for_lt_done by lia. reflexivity.
    + exact (f_equal snd E).
Qed.

(** X7.  When [width] or [height] is zero or negative, neither pass
    runs its loop body: both backends return with the two buffers as
    they were, and no pixel is read. *)
Theorem blur_impl_empty (expf : F32.t -> F32.t) (stk : stack)
  (src dst : buffer) (width height : Z) (sigma : F32.t) :
  width <= 0 \/ height <= 0 ->
  blur_impl_sse2 expf stk src dst width height sigma = (src, dst) /\
  blur_impl_avx expf stk src dst width height sigma = (src, dst).
Proof.
  intros H. unfold blur_impl_sse2, blur_impl_avx. cbv zeta.
  rewrite !pass_sse2_loop, !pass_avx_loop.
  rewrite !pass_loop_empty by tauto. split; reflexivity.
Qed.

Lemma blur_impl_empty_witness :
  (0 <= 0 \/ 5 <= 0) /\
  blur_impl_avx expf_quadratic stack_ones ramp black 0 5 (F32.of_Z 2) =
  (ramp, black).
Proof.
  assert (H : 0 <= 0 \/ 5 <= 0) by (left; lia).
  split; [exact H|].
  exact (proj2 (blur_impl_empty expf_quadratic stack_ones ramp black 0 5
                  (F32.of_Z 2) H)).
Defined.

(** ** The kernel at the edges of its domain *)









Lemma mul_zero_or_nan (x y : spec_float) :
  zero_or_nan x -> zero_or_nan (F32.mul x y).
Proof. destruct x as [sx|sx| |sx mx ex]; destruct y; cbn; tauto. Qed.

Lemma mul_inf_or_nan (x y : spec_float) :
  inf_or_nan x -> inf_or_nan (F32.mul x y).
Proof. destruct x as [sx|sx| |sx mx ex]; destruct y; cbn; tauto. Qed.

Lemma add_inf_or_nan (x y : spec_float) :
  degenerate x -> inf_or_nan y -> inf_or_nan (F32.add x y).
Proof.
  destruct x as [sx|[|]| |sx mx ex]; destruct y as [sy|[|]| |sy my ey];
    cbn; tauto.
Qed.

Lemma inf_or_nan_degenerate (x : spec_float) : inf_or_nan x -> degenerate x.
Proof. destruct x; cbn; tauto. Qed.

Lemma div_inf_or_nan (x y : spec_float) :
  inf_or_nan x -> inf_or_nan y -> F32.div x y = S754_nan.
Proof.
  destruct x as [sx|sx| |sx mx ex]; destruct y as [sy|sy| |sy my ey];
    cbn; tauto.
Qed.

Lemma degenerate_cases (x : spec_float) :
  degenerate x -> zero_or_nan x \/ inf_or_nan x.
Proof. destruct x; cbn; tauto. Qed.

Lemma build_kernel_nan (expf : F32.t -> F32.t) (stk : stack)
  (sigma : F32.t) (i : Z) :
  degenerate (kernel_coeff sigma) -> 0 <= i <= 6 ->
  build_kernel expf stk sigma i = S754_nan.
Proof.
  intros Hd Hi. rewrite build_kernel_eq by exact Hi.
  destruct (degenerate_cases _ Hd) as [Hz|Hinf].
  - assert (W : forall j, zero_or_nan (kernel_weight expf sigma j))
      by (intros j; unfold kernel_weight; apply mul_zero_or_nan; exact Hz).
    apply div_zero_or_nan; [apply W|].
    unfold kernel_total. cbn [fold_left].
    repeat (apply add_zero_or_nan; [|apply W]). exact I.
  - assert (W : forall j, inf_or_nan (kernel_weight expf sigma j))
      by (intros j; unfold kernel_weight; apply mul_inf_or_nan; exact Hinf).
    apply div_inf_or_nan; [apply W|].
    unfold kernel_total. cbn [fold_left].
    do 6 (apply add_inf_or_nan; [apply inf_or_nan_degenerate|apply W]).
    apply add_inf_or_nan; [exact I|apply W].
Qed.

Lemma kernel_coeff_edge (sigma : F32.t) :
  degenerate sigma -> degenerate (kernel_coeff sigma).
Proof.
  destruct sigma as [[|]|[|]| |s m e]; intros H; try contradiction;
    vm_compute; exact I.
Qed.

(** X9.  When [sigma] is zero, infinite or not a number, [coeff] is
    infinite, zero or not a number; and whenever [coeff] is not a
    non-zero finite number, all seven coefficients of the kernel are NaN,
    whatever [expf] returns.  The code has no guard on [sigma]. *)
Theorem build_kernel_degenerate (expf : F32.t -> F32.t) (stk : stack)
  (sigma : F32.t) :
  (degenerate sigma -> degenerate (kernel_coeff sigma)) /\
  (degenerate (kernel_coeff sigma) ->
   forall i, 0 <= i <= 6 -> build_kernel expf stk sigma i = S754_nan).
Proof.
  split; [apply kernel_coeff_edge|].
  intros Hd i Hi. apply build_kernel_nan; assumption.
Qed.

Lemma build_kernel_degenerate_witness :
  (degenerate (S754_zero false) /\ 0 <= 3 <= 6) /\
  build_kernel expf_quadratic stack_ones (S754_zero false) 3 = S754_nan.
Proof.
  split; [split; [exact I|lia]|].
  destruct (build_kernel_degenerate expf_quadratic stack_ones
              (S754_zero false)) as [H1 H2].
  apply (H2 (H1 I)). lia.
Defined.

(** ** The wide pass on a kernel of NaN *)

Lemma all_nan_add_l (a b : list F32.t) :
  all_nan a -> all_nan (map2 F32.add a b).
Proof.
  unfold all_nan. intros H. revert b.
  induction H as [|x a Hx _ IH]; intros [|y b]; cbn [map2]; try constructor.
  - subst x. reflexivity.
  - apply IH.
Qed.

Lemma all_nan_add_r (a b : list F32.t) :
  all_nan b -> all_nan (map2 F32.add a b).
Proof.
  unfold all_nan. intros H. revert a.
  induction H as [|y b Hy _ IH]; intros [|x a]; cbn [map2]; try constructor.
  - subst y. destruct x; reflexivity.
  - apply IH.
Qed.

Lemma all_nan_mul_r (a b : list F32.t) :
  all_nan b -> all_nan (map2 F32.mul a b).
Proof.
  unfold all_nan. intros H. revert a.
  induction H as [|y b Hy _ IH]; intros [|x a]; cbn [map2]; try constructor.
  - subst y. destruct x; reflexivity.
  - apply IH.
Qed.

Lemma all_nan_firstn (n : nat) (v : list F32.t) :
  all_nan v -> all_nan (firstn n v).
Proof.
  unfold all_nan. intros H. revert n.
  induction H as [|x v Hx _ IH]; intros [|n]; cbn [firstn]; constructor; auto.
Qed.

Lemma all_nan_skipn (n : nat) (v : list F32.t) :
  all_nan v -> all_nan (skipn n v).
Proof.
  unfold all_nan. intros H. revert n.
  induction H as [|x v Hx H' IH]; intros [|n]; cbn [skipn]; auto.
Qed.

Lemma all_nan_repeat (v : list F32.t) :
  all_nan v -> v = repeat S754_nan (length v).
Proof.
  unfold all_nan. induction 1 as [|x v Hx _ IH]; cbn [repeat length].
  - reflexivity.
  - subst x. f_equal. exact IH.
Qed.

Lemma map2_length_le {A B C : Type} (f : A -> B -> C) (a : list A) :
  forall b, (length (map2 f a b) <= length b)%nat.
Proof.
  induction a as [|x a IH]; intros [|y b]; cbn [map2 length]; try lia.
  specialize (IH b). lia.
Qed.

Lemma map2_length_le_l {A B C : Type} (f : A -> B -> C) (a : list A) :
  forall b, (length (map2 f a b) <= length a)%nat.
Proof.
  induction a as [|x a IH]; intros [|y b]; cbn [map2 length]; try lia.
  specialize (IH b). lia.
Qed.

Lemma avx_madd_nan_acc (acc : __m256) (tmp : __m128i) (k : __m256) :
  all_nan acc -> all_nan (avx_madd acc tmp k).
Proof. intros H. unfold avx_madd, _mm256_add_ps. apply all_nan_add_l, H. Qed.

Lemma avx_madd_nan_k (acc : __m256) (tmp : __m128i) (k : __m256) :
  all_nan k -> all_nan (avx_madd acc tmp k).
Proof.
  intros H. unfold avx_madd, _mm256_add_ps, _mm256_mul_ps.
  apply all_nan_add_r, all_nan_mul_r, H.
Qed.

(** The conversion of NaN lanes gives the integer indefinite value,
    which the two saturating packs turn into 0. *)
Lemma pack_nan (n : nat) :
  (n <= 4)%nat ->
  _mm_cvtsi128_si32
    (_mm_packus_epi16
       (_mm_packs_epi32 (_mm_cvtps_epi32 (repeat S754_nan n))
          _mm_setzero_si128)
       _mm_setzero_si128) = 0.
Proof.
  intros H. do 5 (destruct n as [|n]; [vm_compute; reflexivity|]). lia.
Qed.

Lemma avx_pixel_nan (kernels : array __m256) (kernel : array F32.t)
  (rgbaIn : array __m128i) :
  all_nan (kernels 0) -> avx_pixel kernels kernel rgbaIn = 0.
Proof.
  intros H. unfold avx_pixel. cbv zeta. cbv [for_lt].
  change (Z.to_nat (3 - 0)) with 3%nat. cbn [for_from snd].
  match goal with
  | |- context [_mm_cvtps_epi32 ?v] =>
      assert (Hv : all_nan v); [|assert (Hl : (length v <= 4)%nat)]
  end.
  - unfold _mm_add_ps. apply all_nan_add_r, all_nan_add_l.
    unfold _mm256_extractf128_ps. cbn [Z.eqb]. apply all_nan_firstn.
    do 6 apply avx_madd_nan_acc. apply avx_madd_nan_k. exact H.
  - unfold _mm_add_ps.
    etransitivity; [apply map2_length_le|].
    etransitivity; [apply map2_length_le|].
    unfold _mm256_extractf128_ps. cbn [Z.eqb].
    rewrite length_skipn.
    match goal with
    | |- (length ?a - 4 <= 4)%nat =>
        assert (length a <= 8)%nat; [|lia]
    end.
    unfold avx_madd at 1. unfold _mm256_add_ps.
    etransitivity; [apply map2_length_le|].
    unfold _mm256_mul_ps.
    etransitivity; [apply map2_length_le_l|].
    unfold _mm256_cvtepi32_ps. rewrite length_map, lanes_length. lia.
  - rewrite (all_nan_repeat _ Hv). apply pack_nan. exact Hl.
Qed.

Lemma avx_kernels_0 (stk : stack) (kernel : array F32.t) :
  avx_kernels stk kernel 0 =
  _mm_set1_ps (kernel 0) ++ _mm_set1_ps (kernel 1).
Proof. reflexivity. Qed.

Lemma avx_pass_nan (stk : stack) (src dst : buffer) (kernel : array F32.t)
  (width height r c : Z) :
  width * height <= 2 ^ 31 - 1 ->
  kernel 0 = S754_nan -> kernel 1 = S754_nan ->
  0 <= r < height -> 0 <= c < width ->
  blur_impl_horizontal_pass_avx stk src dst kernel width height
    (height * c + r) = 0.
Proof.
  intros Hfit K0 K1 Hr Hc.
  destruct (pass_avx_transposed stk src dst kernel width height) as [Hat _];
    [lia|lia|exact Hfit|].
  rewrite Hat by assumption. apply avx_pixel_nan.
  rewrite avx_kernels_0, K0, K1. unfold all_nan.
  repeat constructor.
Qed.

(** X10.  When [coeff] is not a non-zero finite number (for instance
    for [sigma] = 0), the wide backend multiplies every pixel by NaN:
    whatever the image and the unwritten stack words, [blur_impl_avx]
    leaves 0 in all [width * height] pixels of both buffers, for every
    image whose [width * height] is at most 2^31 - 1 (no overflow of the
    store index). *)
Theorem blur_impl_avx_degenerate (expf : F32.t -> F32.t) (stk : stack)
  (src dst : buffer) (width height : Z) (sigma : F32.t) (o : Z) :
  degenerate (kernel_coeff sigma) ->
  1 <= width -> 1 <= height -> width * height <= 2 ^ 31 - 1 ->
  0 <= o < width * height ->
  fst (blur_impl_avx expf stk src dst width height sigma) o = 0 /\
  snd (blur_impl_avx expf stk src dst width height sigma) o = 0.
Proof.
  intros Hd Hw Hh Hfit Ho. unfold blur_impl_avx. cbv zeta. cbn [fst snd].
  set (k := build_kernel expf stk sigma).
  assert (K0 : k 0 = S754_nan) by (apply build_kernel_nan; [exact Hd|lia]).
  assert (K1 : k 1 = S754_nan) by (apply build_kernel_nan; [exact Hd|lia]).
  split.
  - replace (width * height) with (height * width) in Ho by lia.
    destruct (transposed_offset height width o ltac:(lia) Ho) as (E & Hr & Hc).
    rewrite E. apply avx_pass_nan; assumption || lia.
  - destruct (transposed_offset width height o ltac:(lia) Ho) as (E & Hr & Hc).
    rewrite E. apply avx_pass_nan; assumption || lia.
Qed.

Lemma blur_impl_avx_degenerate_witness :
  (degenerate (kernel_coeff (S754_zero false)) /\
   1 <= 7 /\ 1 <= 7 /\ 7 * 7 <= 2 ^ 31 - 1 /\ 0 <= 10 < 7 * 7) /\
  fst (blur_impl_avx expf_quadratic stack_ones red_7x7 black 7 7
         (S754_zero false)) 10 = 0.
Proof.
  assert (H1 : degenerate (kernel_coeff (S754_zero false)))
    by (vm_compute; exact I).
  assert (H2 : 1 <= 7) by lia.
  assert (H0 : 7 * 7 <= 2 ^ 31 - 1) by lia.
  assert (H3 : 0 <= 10 < 7 * 7) by lia.
  split; [repeat split; assumption || lia|].
  exact (proj1 (blur_impl_avx_degenerate expf_quadratic stack_ones red_7x7
                  black 7 7 (S754_zero false) 10 H1 H2 H2 H0 H3)).
Defined.

(** ** Images of any width *)

(** X11.  For every width and height of at least 1, also below the
    kernel size, each word that the gathering of either pass loads for
    row [r], column [c] lies at most 5 words before and 4 words after
    the current pixel; over a whole pass the loads stay within
    [-2 .. width * height + 2], that is at most two words before the
    buffer and three words past its last pixel. *)
Theorem reads_envelope (width height r c a : Z) :
  0 <= r < height -> 0 <= c < width ->
  In a (reads (r * width + c) width c) ->
  r * width + c - 5 <= a <= r * width + c + 4 /\
  -2 <= a <= width * height + 2.
Proof.
  intros Hr Hc.
  assert (0 <= r * width) by nia.
  assert (r * width + width <= width * height) by nia.
  destruct (Z_lt_ge_dec c 3) as [Hl|Hl].
  - rewrite reads_left by lia.
    assert (K : c = 0 \/ c = 1 \/ c = 2) by lia.
    destruct K as [-> | [-> | ->]]; intros Ha; in_cases Ha.
  - destruct (Z_lt_ge_dec (width - 3) c) as [Hb|Hb].
    + rewrite reads_right by lia.
      assert (K : width - c = 1 \/ width - c = 2) by lia.
      destruct K as [K | K]; rewrite K; intros Ha; in_cases Ha.
    + rewrite reads_mid by lia. intros Ha. in_cases Ha.
Qed.

Lemma reads_envelope_witness :
  (0 <= 0 < 1 /\ 0 <= 3 < 4 /\ In (-2) (reads (0 * 4 + 3) 4 3)) /\
  -2 <= -2 <= 4 * 1 + 2.
Proof.
  assert (H : In (-2) (reads (0 * 4 + 3) 4 3)).
  { rewrite reads_right by lia. do 6 right. left. reflexivity. }
  split; [repeat split; try lia; exact H|].
  apply (reads_envelope 4 1 0 3 (-2)); try lia. exact H.
Defined.

(** ** The range of a channel through both passes *)

(** X12.  With both dimensions at least 7 and [width * height] at most
    2^31 - 1 (no overflow of the store index): if channel [k] lies between
    [lo] and [hi] in every source pixel, in the word after the source
    buffer and in the word after the destination buffer, then it lies
    between [lo] and [hi] in every pixel that [blur_impl_sse2] leaves in
    the two buffers.  An opaque image between opaque words stays
    opaque. *)
Theorem blur_impl_sse2_channel_range (expf : F32.t -> F32.t) (stk : stack)
  (src dst : buffer) (width height : Z) (sigma : F32.t) (k lo hi o : Z) :
  7 <= width -> 7 <= height -> width * height <= 2 ^ 31 - 1 ->
  0 <= k < 4 ->
  (forall a, 0 <= a <= width * height -> lo <= channel k (src a) <= hi) ->
  lo <= channel k (dst (width * height)) <= hi ->
  0 <= o < width * height ->
  lo <= channel k
          (fst (blur_impl_sse2 expf stk src dst width height sigma) o) <= hi /\
  lo <= channel k
          (snd (blur_impl_sse2 expf stk src dst width height sigma) o) <= hi.
Proof.
  intros Hw Hh Hfit Hk Hsrc Hdst Ho.
  unfold blur_impl_sse2. cbv zeta. cbn [fst snd].
  set (kn := build_kernel expf stk sigma).
  set (dst1 := blur_impl_horizontal_pass_sse2 stk src dst kn width height).
  assert (H1 : forall a, 0 <= a <= width * height ->
                 lo <= channel k (dst1 a) <= hi).
  { intros a Ha. destruct (Z.eq_dec a (width * height)) as [->|N].
    - destruct (pass_sse2_transposed stk src dst kn width height) as [_ F];
        [lia|lia|lia|].
      unfold dst1. rewrite F by lia. exact Hdst.
    - destruct (transposed_offset width height a ltac:(lia) ltac:(lia))
        as (E & Hr & Hc).
      rewrite E. unfold dst1. apply sse2_pass_range; try assumption.
      intros b Hb. apply Hsrc.
      destruct (reads7_bounds width _ _ b Hw Hc Hb) as [B1 B2].
      set (r := a mod height) in *.
      assert (0 <= r * width) by nia.
      assert (r * width + width <= width * height) by nia.
      split; [lia|].
      destruct (Z_le_gt_dec (r * width + width) b) as [G|G]; [|lia].
      destruct (B2 G) as [_ ->]. lia. }
  split; [|apply H1; lia].
  replace (width * height) with (height * width) in Ho by lia.
  destruct (transposed_offset height width o ltac:(lia) Ho) as (E & Hr & Hc).
  rewrite E. apply sse2_pass_range; try assumption; [lia|].
  intros b Hb. apply H1.
  destruct (reads7_bounds height _ _ b Hh Hc Hb) as [B1 B2].
  set (r := o mod width) in *.
  assert (0 <= r * height) by nia.
  assert (r * height + height <= width * height) by nia.
  split; [lia|].
  destruct (Z_le_gt_dec (r * height + height) b) as [G|G]; [|lia].
  destruct (B2 G) as [_ ->]. lia.
Qed.

Lemma blur_impl_sse2_channel_range_witness :
  (7 <= 7 /\ 7 <= 7 /\ 7 * 7 <= 2 ^ 31 - 1 /\ 0 <= 3 < 4 /\
   (forall a, 0 <= a <= 7 * 7 -> 128 <= channel 3 (flat_grey a) <= 128) /\
   128 <= channel 3 (flat_grey (7 * 7)) <= 128 /\ 0 <= 46 < 7 * 7) /\
  128 <= channel 3
           (fst (blur_impl_sse2 (fun x => x) stack_ones flat_grey flat_grey
                   7 7 (F32.of_Z 2)) 46) <= 128.
Proof.
  assert (H1 : 7 <= 7) by lia.
  assert (H0 : 7 * 7 <= 2 ^ 31 - 1) by lia.
  assert (H2 : 0 <= 3 < 4) by lia.
  assert (H4 : 128 <= channel 3 (flat_grey (7 * 7)) <= 128)
    by (vm_compute; split; discriminate).
  assert (H3 : forall a, 0 <= a <= 7 * 7 ->
                 128 <= channel 3 (flat_grey a) <= 128)
    by (intros a _; exact H4).
  assert (H5 : 0 <= 46 < 7 * 7) by lia.
  split; [repeat split; try apply H4; lia|].
  exact (proj1 (blur_impl_sse2_channel_range (fun x => x) stack_ones
                  flat_grey flat_grey 7 7 (F32.of_Z 2) 3 128 128 46
                  H1 H1 H0 H2 H3 H4 H5)).
Defined.
